(** * myclinic-backup: path derivation and the backup pipeline

    A shallow embedding of [cmd/myclinic-backup/myclinic-backup.go].

    The program derives three artifacts from one timestamp (the plain
    dump path, the encrypted path and the S3 key) and then sequences
    three external steps: [mysqldump], compress-and-encrypt, upload.

    - Go strings are byte sequences: [list ascii] here, with string
      literals coerced.
    - The library functions the program calls ([filepath.Clean],
      [filepath.Split], [filepath.Dir], [time.Format] for the two
      layouts in use, [regexp.ReplaceAllString] for the one pattern in
      use) are embedded after the Go standard library, for a system
      whose path separator is [/].
    - The external world (environment, clock, file system, child
      process, crypto library, S3) is an oracle whose answers may
      depend on everything that happened before; the program is a
      computation in a small trace monad. *)

From Stdlib Require Import List Ascii String ZArith Lia Bool Arith.
Import ListNotations.

Open Scope string_scope.
Open Scope list_scope.

Abbreviation length := List.length.

(** ** Byte strings *)

Definition lit (s : string) : list ascii := list_ascii_of_string s.
Coercion lit : string >-> list.

Definition str := list ascii.

Fixpoint eqb_str (a b : str) : bool :=
  match a, b with
  | [], [] => true
  | x :: a', y :: b' => Ascii.eqb x y && eqb_str a' b'
  | _, _ => false
  end.

Definition is_empty (s : str) : bool :=
  match s with [] => true | _ => false end.

(** Go compares strings bytewise; [lex_le a b] is Go's [a <= b]. *)
Fixpoint lex_le (a b : str) : bool :=
  match a, b with
  | [], _ => true
  | _ :: _, [] => false
  | x :: a', y :: b' =>
      if (nat_of_ascii x <? nat_of_ascii y)%nat then true
      else if (nat_of_ascii y <? nat_of_ascii x)%nat then false
      else lex_le a' b'
  end.

(** [contains s sub]: [strings.Contains], used to state what a diagnostic
    mentions. *)
Fixpoint has_prefix (p s : str) : bool :=
  match p, s with
  | [], _ => true
  | _ :: _, [] => false
  | x :: p', y :: s' => Ascii.eqb x y && has_prefix p' s'
  end.

Fixpoint contains (s sub : str) : bool :=
  has_prefix sub s ||
  match s with
  | [] => false
  | _ :: s' => contains s' sub
  end.

(** ** path/filepath, separator [/] *)

Module filepath.

Definition Separator : ascii := "/"%char.

Definition IsPathSeparator (c : ascii) : bool := Ascii.eqb c Separator.

Definition is_dot (c : ascii) : bool := Ascii.eqb c "."%char.

(** [ToSlash] replaces the separator by a slash: nothing to do here. *)
Definition ToSlash (p : str) : str := p.

(** The [lazybuf] of [Clean]: the bytes written so far, last byte
    first, so that [out.w] is the length of the list. *)
Definition lazybuf := list ascii.

(** [r+k == n || IsPathSeparator(path[r+k])], on the rest of the path
    from [r+k]. *)
Definition ends_element (rest : str) : bool :=
  match rest with
  | [] => true
  | c :: _ => IsPathSeparator c
  end.

(** The backtracking of a [..] element:
    [out.w--; for out.w > dotdot && !IsPathSeparator(out.index(out.w)) { out.w-- }] *)
Fixpoint backtrack (dotdot : nat) (out : lazybuf) : lazybuf :=
  match out with
  | [] => []
  | c :: out' =>
      if (dotdot <? length out')%nat && negb (IsPathSeparator c)
      then backtrack dotdot out'
      else out'
  end.

(** The [..] case of the loop, on the pair (buffer, dotdot). *)
Definition dotdot_element (rooted : bool) (st : lazybuf * nat) : lazybuf * nat :=
  let '(out, dotdot) := st in
  if (dotdot <? length out)%nat then (backtrack dotdot out, dotdot)
  else if negb rooted then
    let out1 := if (0 <? length out)%nat then Separator :: out else out in
    let out2 := "."%char :: "."%char :: out1 in
    (out2, length out2)
  else (out, dotdot).

(** [if rooted && out.w != 1 || !rooted && out.w != 0 { out.append(Separator) }] *)
Definition add_slash (rooted : bool) (out : lazybuf) : lazybuf :=
  if (rooted && negb (length out =? 1)%nat) || (negb rooted && negb (length out =? 0)%nat)
  then Separator :: out else out.

Section Loop.
Variable rooted : bool.

(** [for ; r < n && !IsPathSeparator(path[r]); r++ { out.append(path[r]) }],
    then back to the outer loop ([k]) at the byte that stopped it. *)
Definition copy_element (k : str -> lazybuf * nat -> lazybuf * nat) (dotdot : nat) :=
  fix copy (path : str) (out : lazybuf) {struct path} : lazybuf * nat :=
    match path with
    | [] => (out, dotdot)
    | c :: path' =>
        if IsPathSeparator c then k path (out, dotdot)
        else copy path' (c :: out)
    end.

(** The loop [for r < n { switch { ... } }] on the rest of the path. *)
Fixpoint clean_loop (path : str) (st : lazybuf * nat) {struct path} : lazybuf * nat :=
  match path with
  | [] => st
  | c :: p1 =>
      if IsPathSeparator c then clean_loop p1 st
      else if is_dot c && ends_element p1 then clean_loop p1 st
      else
        match p1 with
        | c1 :: p2 =>
            if is_dot c && is_dot c1 && ends_element p2
            then clean_loop p2 (dotdot_element rooted st)
            else copy_element clean_loop (snd st) p1 (c :: add_slash rooted (fst st))
        | [] => copy_element clean_loop (snd st) p1 (c :: add_slash rooted (fst st))
        end
  end.
End Loop.

(** [if out.w == 0 { out.append('.') }; return out.string()] *)
Definition finish (st : lazybuf * nat) : str :=
  match fst st with
  | [] => "."
  | out => rev out
  end.

Definition Clean (path : str) : str :=
  match path with
  | [] => "."
  | c :: rest =>
      let rooted := IsPathSeparator c in
      finish (if rooted then clean_loop rooted rest ([Separator], 1%nat)
              else clean_loop rooted path ([], 0%nat))
  end.

(** [Split]: the path up to and including the last separator, and what
    follows it. *)
Fixpoint Split (path : str) : str * str :=
  match path with
  | [] => ([], [])
  | c :: rest =>
      let '(dir, file) := Split rest in
      if IsPathSeparator c || negb (is_empty dir) then (c :: dir, file)
      else ([], c :: file)
  end.

Definition Dir (path : str) : str := Clean (fst (Split path)).

(** [for len(path) > 0 && IsPathSeparator(path[len(path)-1]) { path = path[:len(path)-1] }] *)
Fixpoint strip_trailing (path : str) : str :=
  match path with
  | [] => []
  | c :: rest =>
      match strip_trailing rest with
      | [] => if IsPathSeparator c then [] else [c]
      | rest' => c :: rest'
      end
  end.

(** [Base]: the last element of the path.  The program does not call
    it; it names the basename in the statements about the S3 key. *)
Definition Base (path : str) : str :=
  if is_empty path then "."
  else
    let last := snd (Split (strip_trailing path)) in
    if is_empty last then [Separator] else last.

End filepath.

(** ** time: the broken-down wall-clock time and the two layouts in use *)

Module time.

(** What [Time.Format] reads of a [time.Time]: the date and clock in
    the time's own location.  A Go [int] is a 64-bit integer; all
    fields are integers, as in [Time.Date] and [Time.Clock]. *)
Record Time := mkTime {
  Year : Z;
  Month : Z;
  Day : Z;
  Hour : Z;
  Minute : Z
}.

(** The ranges [Time.Date] and [Time.Clock] guarantee. *)
Definition valid (t : Time) : Prop :=
  (1 <= Month t <= 12 /\ 1 <= Day t <= 31 /\
   0 <= Hour t <= 23 /\ 0 <= Minute t <= 59)%Z.

(** Chronological order at minute granularity. *)
Definition cmp (a b : Time) : comparison :=
  match (Year a ?= Year b)%Z with
  | Eq =>
      match (Month a ?= Month b)%Z with
      | Eq =>
          match (Day a ?= Day b)%Z with
          | Eq =>
              match (Hour a ?= Hour b)%Z with
              | Eq => (Minute a ?= Minute b)%Z
              | c => c
              end
          | c => c
          end
      | c => c
      end
  | c => c
  end.

Definition le (a b : Time) : Prop := cmp a b <> Gt.

Definition digit (d : Z) : ascii := ascii_of_nat (48 + Z.to_nat d).

(** The digit loop of [appendInt]:
    [for u >= 10 { i--; q := u / 10; buf[i] = byte('0' + u - q*10); u = q }; i--; buf[i] = byte('0' + u)].
    [room] bounds the iterations, as the 20 bytes of [buf] do for a
    64-bit integer. *)
Fixpoint utoa (room : nat) (u : Z) (buf : str) : str :=
  match room with
  | O => digit u :: buf
  | S room' =>
      if (10 <=? u)%Z
      then let q := (u / 10)%Z in utoa room' q (digit (u - q * 10) :: buf)
      else digit u :: buf
  end.

(** The digits of [u]; the loop gets room for all of them: an integer
    has at most [log2 u + 1]. *)
Definition digits (u : Z) : str := utoa (Z.to_nat (Z.log2 u)) u [].

(** [appendInt(b, x, width)] on an empty [b]: sign, zero padding to
    [width], digits. *)
Definition appendInt (x : Z) (width : nat) : str :=
  let sign : str := if (x <? 0)%Z then "-" else "" in
  let ds := digits (Z.abs x) in
  sign ++ repeat "0"%char (width - length ds) ++ ds.

(** The chunks [nextStdChunk] cuts the two layouts into. *)
Inductive chunk :=
| stdLongYear       (* 2006 *)
| stdZeroMonth      (* 01 *)
| stdZeroDay        (* 02 *)
| stdHour           (* 15 *)
| stdZeroMinute     (* 04 *)
| literal (s : str).

Definition appendChunk (t : Time) (c : chunk) : str :=
  match c with
  | stdLongYear => appendInt (Year t) 4
  | stdZeroMonth => appendInt (Month t) 2
  | stdZeroDay => appendInt (Day t) 2
  | stdHour => appendInt (Hour t) 2
  | stdZeroMinute => appendInt (Minute t) 2
  | literal s => s
  end.

Definition Format (t : Time) (layout : list chunk) : str :=
  flat_map (appendChunk t) layout.

(** The layout ["2006-01"]. *)
Definition layout_month : list chunk :=
  [stdLongYear; literal "-"; stdZeroMonth].

(** The layout ["200601021504"]. *)
Definition layout_minute : list chunk :=
  [stdLongYear; stdZeroMonth; stdZeroDay; stdHour; stdZeroMinute].

End time.

(** [strconv.Itoa] and the verb [%d]. *)
Definition Itoa (x : Z) : str := time.appendInt x 0.

(** ** regexp: a backtracking matcher for the operators of the pattern *)

Module regexp.

(** The operators that occur in [(.+)(\.(\w+))$]. *)
Inductive re :=
| Class (p : ascii -> bool)
| Cat (a b : re)
| Plus (a : re)
| Group (i : nat) (a : re)
| EndText.

(** [.] without the [s] flag: any byte but a line feed. *)
Definition any_char (c : ascii) : bool := negb (Ascii.eqb c "010"%char).

Definition dot_char (c : ascii) : bool := Ascii.eqb c "."%char.

(** [\w]: [0-9A-Za-z_]. *)
Definition word_char (c : ascii) : bool :=
  let n := nat_of_ascii c in
  ((48 <=? n) && (n <=? 57) || (65 <=? n) && (n <=? 90) ||
   (97 <=? n) && (n <=? 122) || (n =? 95))%nat.

(** Submatches: the text of each group that took part in the match. *)
Definition captures := list (nat * str).

Fixpoint capture (i : nat) (caps : captures) : str :=
  match caps with
  | [] => []
  | (j, s) :: caps' => if (i =? j)%nat then s else capture i caps'
  end.

(** A thread of the matcher: the input still to read, and the
    submatches so far. *)
Definition thread := (str * captures)%type.

Definition consumed (before after : str) : str :=
  firstn (length before - length after) before.

(** [iterate step n th]: one or more rounds of [step], more rounds
    preferred; a round that reads nothing ends the iteration; [n]
    bounds the rounds and is never reached when it exceeds the length
    of the input. *)
Fixpoint iterate (step : thread -> list thread) (n : nat) (th : thread) : list thread :=
  match n with
  | O => []
  | S n' =>
      flat_map
        (fun th1 =>
           (if (length (fst th1) <? length (fst th))%nat
            then iterate step n' th1 else []) ++ [th1])
        (step th)
  end.

(** [run r th]: every way [r] can match at the head of the input of
    [th], preferred first ([a+] prefers one more iteration). *)
Fixpoint run (r : re) (th : thread) {struct r} : list thread :=
  match r with
  | Class p =>
      match fst th with
      | c :: rest => if p c then [(rest, snd th)] else []
      | [] => []
      end
  | Cat a b => flat_map (run b) (run a th)
  | Plus a => iterate (run a) (S (length (fst th))) th
  | Group i a =>
      map (fun th1 => (fst th1, (i, consumed (fst th) (fst th1)) :: snd th1))
          (run a th)
  | EndText => if is_empty (fst th) then [th] else []
  end.

(** The replacement template, cut at its [$name] references. *)
Inductive piece :=
| Text (s : str)
| Submatch (i : nat).

Definition expand (template : list piece) (caps : captures) : str :=
  flat_map (fun p => match p with
                     | Text s => s
                     | Submatch i => capture i caps
                     end) template.

(** [ReplaceAllString]: the leftmost match, then the next one after
    it; [skip] counts the bytes of [src] still inside the match just
    replaced.  For patterns that do not match the empty string. *)
Fixpoint replace_all (r : re) (template : list piece) (skip : nat) (src : str) : str :=
  match src with
  | [] => []
  | c :: rest =>
      match skip with
      | S skip' => replace_all r template skip' rest
      | O =>
          match run r (src, []) with
          | (after, caps) :: _ =>
              if (length after <? length src)%nat
              then expand template caps ++
                   replace_all r template (length rest - length after) rest
              else c :: replace_all r template 0 rest
          | [] => c :: replace_all r template 0 rest
          end
      end
  end.

Definition ReplaceAllString (r : re) (src : str) (template : list piece) : str :=
  replace_all r template 0 src.

End regexp.

(** ** The program: constants and path derivation *)

Definition mysqlUserEnvVar : str := "MYCLINIC_DB_USER".
Definition mysqlPassEnvVar : str := "MYCLINIC_DB_PASS".
Definition backupDirEnvVar : str := "MYCLINIC_BACKUP_DIR".
Definition encryptedBackupDirEnvVar : str := "MYCLINIC_BACKUP_ENCRYPTED_DIR".
Definition encryptionKey : str := "MYCLINIC_BACKUP_ENCRYPTION_KEY".
Definition s3BackupRegionEnvVar : str := "MYCLINIC_BACKUP_S3_REGION".
Definition s3BackupBucketEnvVar : str := "MYCLINIC_BACKUP_S3_BUCKET".

Definition envReference : str :=
"
MYCLINIC_DB_USER -- database user
MYCLINIC_DB_PASS -- database password
MYCLINIC_BACKUP_DIR -- directory to store plain SQL backup file
MYCLINIC_BACKUP_ENCRYPTED_DIR -- directory to store encrypted SQL backup file
MYCLINIC_BACKUP_ENCRYPTION_KEY -- path to encryption key file
MYCLINIC_BACKUP_S3_REGION -- S3 region
MYCLINIC_BACKUP_S3_BUCKET -- S3 bucket
".

Definition dirPart (dateTime : time.Time) : str :=
  time.Format dateTime time.layout_month.

Definition filePart (dateTime : time.Time) : str :=
  "dump-" ++ time.Format dateTime time.layout_minute ++ ".sql".

(** The pattern [(.+)(\.(\w+))$]. *)
Definition reg : regexp.re :=
  regexp.Cat
    (regexp.Group 1 (regexp.Plus (regexp.Class regexp.any_char)))
    (regexp.Cat
       (regexp.Group 2
          (regexp.Cat (regexp.Class regexp.dot_char)
             (regexp.Group 3 (regexp.Plus (regexp.Class regexp.word_char)))))
       regexp.EndText).

(** The template ["$1-$3.cf"]. *)
Definition template : list regexp.piece :=
  [regexp.Submatch 1; regexp.Text "-"; regexp.Submatch 3; regexp.Text ".cf"].

Definition encryptedBackupResult (src : str) : str :=
  regexp.ReplaceAllString reg src template.

Definition createBackupFilePath (dir : str) (dateTime : time.Time) : str :=
  let p := dir ++ "/" ++ dirPart dateTime ++ "/" ++ filePart dateTime in
  let p := filepath.ToSlash p in
  filepath.Clean p.

Definition createS3Key (encryptedFile : str) : str :=
  let '(dir, base) := filepath.Split encryptedFile in
  let '(_, dirbase) := filepath.Split (filepath.Clean (dir ++ ".")) in
  dirbase ++ "/" ++ base.

Definition t_2024_01_15_0930 : time.Time := time.mkTime 2024 1 15 9 30.

(** ** The outside world and the trace monad *)

(** A Go [error], by the text of its [Error()]. *)
Definition error := str.

(** What the process does to the outside, in order. *)
Inductive event :=
| Stdout (s : str)
| Stderr (s : str)
| TimeNow
| MkdirAll (dir : str)
| Exec (name : str) (args : list str)
| ReadKeyFile (path : str)
| ReadFile (path : str)
| CompressAndEncrypt (key data : str)
| WriteFile (path : str) (data : str)
| NewSession (region : str)
| Open (path : str)
| Upload (bucket key file : str).

(** How a child process ended, as seen by [cmd.Run]. *)
Inductive run_status :=
| StartFailed (e : error)
| Exited (code : Z)
| Signaled (signal : str).

(** The answers of the outside world.  Every answer but the process
    environment may depend on the events so far. *)
Record world := mkWorld {
  environ : str -> str;
  clock : list event -> time.Time;
  mkdir_all : list event -> str -> option error;
  child : list event -> str -> list str -> run_status;
  read_key_file : list event -> str -> str * option error;
  read_file : list event -> str -> str * option error;
  compress_and_encrypt : list event -> str -> str -> str * option error;
  write_file : list event -> str -> str -> option error;
  new_session : list event -> str -> option error;
  open_file : list event -> str -> option error;
  s3_upload : list event -> str -> str -> str -> option error
}.

(** How a computation ends: a value, [os.Exit(code)], or [panic(e)]. *)
Inductive result (A : Type) :=
| Ret (a : A)
| Exit (code : Z)
| Panic (e : error).
Arguments Ret {A} a.
Arguments Exit {A} code.
Arguments Panic {A} e.

(** A computation reads the events so far and extends them. *)
Definition proc (A : Type) := list event -> result A * list event.

Definition ret {A} (a : A) : proc A := fun h => (Ret a, h).

Definition bind {A B} (m : proc A) (k : A -> proc B) : proc B :=
  fun h =>
    match m h with
    | (Ret a, h') => k a h'
    | (Exit c, h') => (Exit c, h')
    | (Panic e, h') => (Panic e, h')
    end.

Notation "x <- m ;; k" := (bind m (fun x => k))
  (at level 61, m at next level, right associativity).
Notation "m ;; k" := (bind m (fun _ => k))
  (at level 61, right associativity).

(** Do [e] and take the world's answer, which may depend on the events
    before [e]. *)
Definition call {A} (e : event) (answer : list event -> A) : proc A :=
  fun h => (Ret (answer h), h ++ [e]).

Definition emit (e : event) : proc unit := call e (fun _ => tt).

Definition os_Exit {A} (code : Z) : proc A := fun h => (Exit code, h).

Definition panic {A} (e : error) : proc A := fun h => (Panic e, h).

(** ** The program: the pipeline

    [copyFile] and [invokeAxCrypt] are never called; they are left
    out. *)

Section Program.
Variable w : world.

(** The flags [-dry-run] and [-env], after [flag.Parse]. *)
Variable dryRun printEnv : bool.

Definition printEnvReference : proc unit := emit (Stdout envReference).

(** [session.Must(session.NewSession(...))], [os.Open], [uploader.Upload]. *)
Definition uploadToS3 (region bucket key filename : str) : proc (option error) :=
  serr <- call (NewSession region) (fun h => new_session w h region) ;;
  match serr with
  | Some e => panic e
  | None =>
      err <- call (Open filename) (fun h => open_file w h filename) ;;
      match err with
      | Some e => ret (Some e)
      | None => call (Upload bucket key filename)
                     (fun h => s3_upload w h bucket key filename)
      end
  end.

Definition getenv (name : str) : proc str :=
  let value := environ w name in
  if is_empty value then
    emit (Stderr ("cannot get env var " ++ name)) ;; os_Exit 1
  else ret value.

(** [cmd.Run()]: nil when the child exits with status 0, an
    [*exec.ExitError] when it ends otherwise, the start error when it
    does not start. *)
Definition cmd_Run (st : run_status) : option error :=
  match st with
  | StartFailed e => Some e
  | Exited code => if (code =? 0)%Z then None else Some ("exit status " ++ Itoa code)
  | Signaled sig => Some ("signal: " ++ sig)
  end.

(** [cmd.ProcessState.ExitCode()]. *)
Definition ExitCode (st : run_status) : Z :=
  match st with
  | Exited code => code
  | _ => (-1)%Z
  end.

Definition dumpMysql (backupFile : str) : proc (option error) :=
  let dir := filepath.Dir backupFile in
  err <- call (MkdirAll dir) (fun h => mkdir_all w h dir) ;;
  match err with
  | Some e => ret (Some e)
  | None =>
      user <- getenv mysqlUserEnvVar ;;
      pass <- getenv mysqlPassEnvVar ;;
      let args : list str :=
        [lit "-u"; user; "-p" ++ pass; lit "--default-character-set=utf8";
         lit "myclinic"; "--result-file=" ++ backupFile] in
      st <- call (Exec "mysqldump" args) (fun h => child w h "mysqldump" args) ;;
      match cmd_Run st with
      | Some e => ret (Some e)
      | None =>
          let exitCode := ExitCode st in
          if negb (exitCode =? 0)%Z
          then ret (Some ("mysqldump failed with exit code: " ++ Itoa exitCode))
          else ret None
      end
  end.

Definition encryptBackupFile (dstPath key srcPath : str) : proc (option error) :=
  emit (Stdout ("dstPath " ++ dstPath ++ "
")) ;;
  let dir := filepath.Dir dstPath in
  emit (Stdout ("dst dir " ++ dir ++ "
")) ;;
  err <- call (MkdirAll dir) (fun h => mkdir_all w h dir) ;;
  match err with
  | Some e => ret (Some e)
  | None =>
      r <- call (ReadFile srcPath) (fun h => read_file w h srcPath) ;;
      let '(in_, err) := r in
      match err with
      | Some e => ret (Some e)
      | None =>
          r <- call (CompressAndEncrypt key in_)
                    (fun h => compress_and_encrypt w h key in_) ;;
          let '(enc, err) := r in
          err <- call (WriteFile dstPath enc) (fun h => write_file w h dstPath enc) ;;
          ret None
      end
  end.

Definition getEncryptionKey : proc (str * option error) :=
  let keyPath := environ w encryptionKey in
  if is_empty keyPath then
    ret (lit "", Some ("Cannot get key path from $" ++ encryptionKey))
  else call (ReadKeyFile keyPath) (fun h => read_key_file w h keyPath).

Definition main : proc unit :=
  if printEnv then printEnvReference
  else
    now <- call TimeNow (clock w) ;;
    backupDir <- getenv backupDirEnvVar ;;
    let backupFile := createBackupFilePath backupDir now in
    (if negb dryRun then
       err <- dumpMysql backupFile ;;
       match err with
       | Some e => emit (Stderr ("mysql backup failed: " ++ e ++ "
")) ;; os_Exit 1
       | None => ret tt
       end
     else ret tt) ;;
    emit (Stdout ("database backed up to " ++ backupFile ++ "
")) ;;
    encryptedBackupDir <- getenv encryptedBackupDirEnvVar ;;
    let encSrc := createBackupFilePath encryptedBackupDir now in
    let encryptedFile := encryptedBackupResult encSrc in
    (if negb dryRun then
       r <- getEncryptionKey ;;
       let '(key, err) := r in
       match err with
       | Some e => panic e
       | None =>
           err <- encryptBackupFile encryptedFile key backupFile ;;
           match err with
           | Some e => panic e
           | None => ret tt
           end
       end
     else ret tt) ;;
    emit (Stdout ("encrypted file: " ++ encryptedFile ++ "
")) ;;
    region <- getenv s3BackupRegionEnvVar ;;
    emit (Stdout ("region: " ++ region ++ "
")) ;;
    bucket <- getenv s3BackupBucketEnvVar ;;
    let key := createS3Key encryptedFile in
    emit (Stdout ("S3 key: " ++ key ++ "
")) ;;
    (if negb dryRun then
       err <- uploadToS3 region bucket key encryptedFile ;;
       match err with
       | Some e => emit (Stderr ("failed to upload to S3: " ++ e ++ "
")) ;; os_Exit 1
       | None => ret tt
       end
     else ret tt).

End Program.

(** A run of the process from an empty history. *)
Definition run_main (w : world) (dryRun printEnv : bool) : result unit * list event :=
  main w dryRun printEnv [].

(** ** Sample worlds *)

(** An environment from a list of bindings; unset variables read as
    the empty string, as with [os.Getenv]. *)
Fixpoint env_of (bindings : list (str * str)) (name : str) : str :=
  match bindings with
  | [] => ""
  | (n, v) :: rest => if eqb_str n name then v else env_of rest name
  end.

Definition full_env : list (str * str) :=
  [(mysqlUserEnvVar, lit "clinic"); (mysqlPassEnvVar, lit "secret");
   (backupDirEnvVar, lit "/backup"); (encryptedBackupDirEnvVar, lit "/ebackup");
   (encryptionKey, lit "/etc/backup.key"); (s3BackupRegionEnvVar, lit "ap-northeast-1");
   (s3BackupBucketEnvVar, lit "clinic-backup")].

(** A world in which every step succeeds, at 2024-01-15 09:30. *)
Definition good_world (bindings : list (str * str)) : world :=
  {| environ := env_of bindings;
     clock := fun _ => t_2024_01_15_0930;
     mkdir_all := fun _ _ => None;
     child := fun _ _ _ => Exited 0;
     read_key_file := fun _ _ => (lit "k", None);
     read_file := fun _ _ => (lit "sql", None);
     compress_and_encrypt := fun _ _ _ => (lit "enc", None);
     write_file := fun _ _ _ => None;
     new_session := fun _ _ => None;
     open_file := fun _ _ => None;
     s3_upload := fun _ _ _ _ => None |}.


(** ** Notions used in the statements *)

(** No separator in [e]. *)
Definition no_sep (e : str) : Prop :=
  Forall (fun c => filepath.IsPathSeparator c = false) e.

(** A path element that is neither [.] nor [..]: no separator, and a
    first byte that is not a dot. *)
Definition plain (e : str) : Prop :=
  no_sep e /\ exists c e', e = c :: e' /\ filepath.is_dot c = false.

(** Empty, or ending in a separator. *)
Definition slash_terminated (q : str) : Prop :=
  q = [] \/ exists x, q = x ++ [filepath.Separator].

(** The state of the loop of [Clean] once it has read the base
    directory of [dir ++ "/" ++ ...]: whether the path is rooted, the
    buffer and [dotdot]. *)
Definition dir_state (dir : str) : bool * (filepath.lazybuf * nat) :=
  match dir with
  | [] => (true, ([filepath.Separator], 1%nat))
  | c :: rest =>
      if filepath.IsPathSeparator c
      then (true, filepath.clean_loop true rest ([filepath.Separator], 1%nat))
      else (false, filepath.clean_loop false dir ([], 0%nat))
  end.

(** What [Clean] makes of the base directory in a derived path: the
    cleaned directory and the separator after it, if one is due. *)
Definition clean_prefix (dir : str) : str :=
  let '(rooted, st) := dir_state dir in
  rev (filepath.add_slash rooted (fst st)).

(** The tails after the last element that [Clean] drops. *)
Definition skipped (tail : str) : Prop :=
  tail = [] \/ tail = "/" \/ tail = "/.".

(** In a rooted path the buffer keeps the leading separator, and
    [dotdot] stays at 1. *)
Definition rooted_ok (st : filepath.lazybuf * nat) : Prop :=
  snd st = 1%nat /\ exists o, fst st = o ++ [filepath.Separator].

(** [fixed w x]: the last [w] decimal digits of [x], zero padded. *)
Fixpoint fixed (w : nat) (x : Z) : str :=
  match w with
  | O => []
  | S w' => fixed w' (x / 10) ++ [time.digit (x mod 10)]
  end.

Definition is_digit (c : ascii) : bool :=
  ((48 <=? nat_of_ascii c) && (nat_of_ascii c <=? 57))%nat.

(** The bytes of a formatted time: digits, and the sign of a negative
    field. *)
Definition stamp_char (c : ascii) : bool :=
  is_digit c || Ascii.eqb c "-"%char.

(** The file name with the extension rewritten. *)
Definition encryptedFilePart (t : time.Time) : str :=
  "dump-" ++ time.Format t time.layout_minute ++ "-sql.cf".

(** What [p+] can leave of the input [s], longest match first. *)
Fixpoint plus_rests (p : ascii -> bool) (s : str) : list str :=
  match s with
  | [] => []
  | c :: t => if p c then plus_rests p t ++ [t] else []
  end.

(** A word-character extension: what [\w+] matches whole. *)
Definition is_ext (ext : str) : Prop :=
  ext <> [] /\ forallb regexp.word_char ext = true.

(** [s] ends in a dot-extension group. *)
Definition has_ext_group (s : str) : Prop :=
  exists stem ext, s = stem ++ "."%char :: ext /\ is_ext ext.

(** [s] ends in a dot-extension group that follows a byte other than a
    line feed: the strings the pattern matches. *)
Definition rewritable (s : str) : Prop :=
  exists stem c ext,
    s = stem ++ c :: "."%char :: ext /\ regexp.any_char c = true /\ is_ext ext.

(** The groups after [(.+)] in the pattern. *)
Definition reg_tail : regexp.re :=
  regexp.Cat
    (regexp.Group 2
       (regexp.Cat (regexp.Class regexp.dot_char)
          (regexp.Group 3 (regexp.Plus (regexp.Class regexp.word_char)))))
    regexp.EndText.

(** What [(\.(\w+))$] matches whole: a dot and an extension. *)
Definition ext_tail (r : str) : bool :=
  match r with
  | [] => false
  | c :: r' => regexp.dot_char c && (negb (is_empty r') && forallb regexp.word_char r')
  end.

(** A time with a four-digit year. *)
Definition four_digit_year (t : time.Time) : Prop := (0 <= time.Year t <= 9999)%Z.

(** The three artifacts of a run: the plain path, the encrypted path
    and the storage key, from the configured directories and the time
    read at the start. *)
Definition plain_path (w : world) : str :=
  createBackupFilePath (environ w backupDirEnvVar) (clock w []).

Definition encrypted_path (w : world) : str :=
  encryptedBackupResult
    (createBackupFilePath (environ w encryptedBackupDirEnvVar) (clock w [])).

Definition storage_key (w : world) : str := createS3Key (encrypted_path w).

(** The variables the program reads. *)
Definition required_vars : list str :=
  [mysqlUserEnvVar; mysqlPassEnvVar; backupDirEnvVar; encryptedBackupDirEnvVar;
   encryptionKey; s3BackupRegionEnvVar; s3BackupBucketEnvVar].

(** The variables a dry run reads. *)
Definition dry_run_vars : list str :=
  [backupDirEnvVar; encryptedBackupDirEnvVar; s3BackupRegionEnvVar;
   s3BackupBucketEnvVar].

(** Events that act on the outside: file system, child process, crypto
    library, S3. *)
Definition is_step (e : event) : bool :=
  match e with
  | Stdout _ | Stderr _ | TimeNow => false
  | _ => true
  end.

(** Events that create a directory or a file. *)
Definition creates_file (e : event) : bool :=
  match e with
  | MkdirAll _ | Exec _ _ | WriteFile _ _ => true
  | _ => false
  end.

(** Events of the upload client. *)
Definition is_upload (e : event) : bool :=
  match e with
  | NewSession _ | Open _ | Upload _ _ _ => true
  | _ => false
  end.

Definition is_exec (e : event) : bool :=
  match e with
  | Exec _ _ => true
  | _ => false
  end.

(** What the process wrote to standard output, write by write, and to
    standard error. *)
Definition stdout_of (tr : list event) : list str :=
  flat_map (fun e => match e with Stdout s => [s] | _ => [] end) tr.

Definition stderr_of (tr : list event) : list str :=
  flat_map (fun e => match e with Stderr s => [s] | _ => [] end) tr.

(** The process did not run to the end of [main]. *)
Definition aborted {A} (r : result A) : Prop :=
  match r with
  | Ret _ => False
  | Exit code => code <> 0%Z
  | Panic _ => True
  end.

(** The lines of [main] about the artifacts. *)
Definition line_backed_up (w : world) : str :=
  "database backed up to " ++ plain_path w ++ "
".
Definition line_encrypted (w : world) : str :=
  "encrypted file: " ++ encrypted_path w ++ "
".
Definition line_region (w : world) : str :=
  "region: " ++ environ w s3BackupRegionEnvVar ++ "
".
Definition line_key (w : world) : str :=
  "S3 key: " ++ storage_key w ++ "
".

(** The lines of [encryptBackupFile]. *)
Definition line_dstPath (w : world) : str :=
  "dstPath " ++ encrypted_path w ++ "
".
Definition line_dst_dir (w : world) : str :=
  "dst dir " ++ filepath.Dir (encrypted_path w) ++ "
".

Definition is_now (e : event) : bool :=
  match e with
  | TimeNow => true
  | _ => false
  end.

(** Every path and key an event carries is one of the three artifacts
    of the run, or the directory of one. *)
Definition coherent_event (w : world) (e : event) : Prop :=
  match e with
  | Stdout s =>
      In s [line_backed_up w; line_dstPath w; line_dst_dir w;
            line_encrypted w; line_region w; line_key w]
  | MkdirAll d =>
      d = filepath.Dir (plain_path w) \/ d = filepath.Dir (encrypted_path w)
  | Exec _ args => In ("--result-file=" ++ plain_path w) args
  | ReadFile p => p = plain_path w
  | WriteFile p _ => p = encrypted_path w
  | Open p => p = encrypted_path w
  | Upload _ key file => key = storage_key w /\ file = encrypted_path w
  | _ => True
  end.

(** A world in which the encryption primitive and the write of the
    encrypted file both fail. *)
Definition failing_encryption_world : world :=
  {| environ := env_of full_env;
     clock := fun _ => t_2024_01_15_0930;
     mkdir_all := fun _ _ => None;
     child := fun _ _ _ => Exited 0;
     read_key_file := fun _ _ => (lit "k", None);
     read_file := fun _ _ => (lit "sql", None);
     compress_and_encrypt := fun _ _ _ => (lit "", Some (lit "cipher: invalid key size"));
     write_file := fun _ _ _ => Some (lit "permission denied");
     new_session := fun _ _ => None;
     open_file := fun _ _ => None;
     s3_upload := fun _ _ _ _ => None |}.

(** A world in which [mysqldump] exits with status 2. *)
Definition failing_dump_world : world :=
  {| environ := env_of full_env;
     clock := fun _ => t_2024_01_15_0930;
     mkdir_all := fun _ _ => None;
     child := fun _ _ _ => Exited 2;
     read_key_file := fun _ _ => (lit "k", None);
     read_file := fun _ _ => (lit "sql", None);
     compress_and_encrypt := fun _ _ _ => (lit "enc", None);
     write_file := fun _ _ _ => None;
     new_session := fun _ _ => None;
     open_file := fun _ _ => None;
     s3_upload := fun _ _ _ _ => None |}.

(** The environment without the region. *)
Definition env_without_region : list (str * str) :=
  [(mysqlUserEnvVar, lit "clinic"); (mysqlPassEnvVar, lit "secret");
   (backupDirEnvVar, lit "/backup"); (encryptedBackupDirEnvVar, lit "/ebackup");
   (encryptionKey, lit "/etc/backup.key"); (s3BackupBucketEnvVar, lit "clinic-backup")].

(** The environment without the database user. *)
Definition env_without_user : list (str * str) :=
  [(mysqlPassEnvVar, lit "secret");
   (backupDirEnvVar, lit "/backup"); (encryptedBackupDirEnvVar, lit "/ebackup");
   (encryptionKey, lit "/etc/backup.key"); (s3BackupRegionEnvVar, lit "ap-northeast-1");
   (s3BackupBucketEnvVar, lit "clinic-backup")].

(** A path element other than [.] and [..]. *)
Definition regular (e : str) : Prop :=
  no_sep e /\ e <> [] /\ e <> lit "." /\ e <> lit "..".

(** The rooted path of the elements: [/a/b/c]. *)
Definition abs_path (elements : list str) : str :=
  flat_map (fun e => filepath.Separator :: e) elements.

(** [invokeAxCrypt]: the program keeps it but never calls it.  The
    command has no output stream set; [cmd.Run] and [ExitCode] are as
    in [dumpMysql]. *)
Definition invokeAxCrypt (w : world) (prog password src : str) : proc (option error) :=
  let args : list str :=
    [lit "-b"; lit "2"; lit "-e"; lit "-k"; password; lit "-z"; src] in
  st <- call (Exec prog args) (fun h => child w h prog args) ;;
  match cmd_Run st with
  | Some e => ret (Some e)
  | None =>
      let exitCode := ExitCode st in
      if negb (exitCode =? 0)%Z
      then ret (Some ("axcrypt failed with exit code " ++ Itoa exitCode))
      else ret None
  end.

(** The steps of the pipeline, by kind. *)
Inductive stage :=
| SMkdir | SDump | SReadKey | SReadPlain | SEncrypt | SWrite
| SSession | SOpen | SUpload.

Definition stage_of (e : event) : list stage :=
  match e with
  | MkdirAll _ => [SMkdir]
  | Exec _ _ => [SDump]
  | ReadKeyFile _ => [SReadKey]
  | ReadFile _ => [SReadPlain]
  | CompressAndEncrypt _ _ => [SEncrypt]
  | WriteFile _ _ => [SWrite]
  | NewSession _ => [SSession]
  | Open _ => [SOpen]
  | Upload _ _ _ => [SUpload]
  | _ => []
  end.

Definition stages_of (tr : list event) : list stage := flat_map stage_of tr.

(** The steps of a complete live run, in order. *)
Definition pipeline_stages : list stage :=
  [SMkdir; SDump; SReadKey; SMkdir; SReadPlain; SEncrypt; SWrite;
   SSession; SOpen; SUpload].

(** The steps that read the key or the dump, encrypt or write. *)
Definition is_encryption_step (e : event) : bool :=
  match e with
  | ReadKeyFile _ | ReadFile _ | CompressAndEncrypt _ _ | WriteFile _ _ => true
  | _ => false
  end.

(** The command line of the dump. *)
Definition dump_args (w : world) : list str :=
  [lit "-u"; environ w mysqlUserEnvVar; "-p" ++ environ w mysqlPassEnvVar;
   lit "--default-character-set=utf8"; lit "myclinic";
   "--result-file=" ++ plain_path w].

(** The environment without the key-file variable. *)
Definition env_without_key : list (str * str) :=
  [(mysqlUserEnvVar, lit "clinic"); (mysqlPassEnvVar, lit "secret");
   (backupDirEnvVar, lit "/backup"); (encryptedBackupDirEnvVar, lit "/ebackup");
   (s3BackupRegionEnvVar, lit "ap-northeast-1");
   (s3BackupBucketEnvVar, lit "clinic-backup")].

(** A world in which the dump file cannot be read back. *)
Definition unreadable_dump_world : world :=
  {| environ := env_of full_env;
     clock := fun _ => t_2024_01_15_0930;
     mkdir_all := fun _ _ => None;
     child := fun _ _ _ => Exited 0;
     read_key_file := fun _ _ => (lit "k", None);
     read_file := fun _ _ => (lit "", Some (lit "no such file or directory"));
     compress_and_encrypt := fun _ _ _ => (lit "enc", None);
     write_file := fun _ _ _ => None;
     new_session := fun _ _ => None;
     open_file := fun _ _ => None;
     s3_upload := fun _ _ _ _ => None |}.

(** [split_at P l]: [l] cut at its first event that satisfies [P]. *)
Fixpoint split_at (P : event -> bool) (l : list event)
  : option (list event * event * list event) :=
  match l with
  | [] => None
  | x :: l' =>
      if P x then Some ([], x, l')
      else match split_at P l' with
           | Some (a, b, c) => Some (x :: a, b, c)
           | None => None
           end
  end.

Definition is_open (e : event) : bool :=
  match e with
  | Open _ => true
  | _ => false
  end.

Definition is_Upload (e : event) : bool :=
  match e with
  | Upload _ _ _ => true
  | _ => false
  end.

(** A world in which the upload is refused. *)
Definition failing_upload_world : world :=
  {| environ := env_of full_env;
     clock := fun _ => t_2024_01_15_0930;
     mkdir_all := fun _ _ => None;
     child := fun _ _ _ => Exited 0;
     read_key_file := fun _ _ => (lit "k", None);
     read_file := fun _ _ => (lit "sql", None);
     compress_and_encrypt := fun _ _ _ => (lit "enc", None);
     write_file := fun _ _ _ => None;
     new_session := fun _ _ => None;
     open_file := fun _ _ => None;
     s3_upload := fun _ _ _ _ => Some (lit "AccessDenied") |}.

(** A world in which the encrypted file cannot be opened again. *)
Definition failing_open_world : world :=
  {| environ := env_of full_env;
     clock := fun _ => t_2024_01_15_0930;
     mkdir_all := fun _ _ => None;
     child := fun _ _ _ => Exited 0;
     read_key_file := fun _ _ => (lit "k", None);
     read_file := fun _ _ => (lit "sql", None);
     compress_and_encrypt := fun _ _ _ => (lit "enc", None);
     write_file := fun _ _ _ => None;
     new_session := fun _ _ => None;
     open_file := fun _ _ => Some (lit "no such file or directory");
     s3_upload := fun _ _ _ _ => None |}.

(** ** Examples *)

Example Clean_ex1 : filepath.Clean "/backup//2024-01/./dump.sql" = "/backup/2024-01/dump.sql".
Proof. reflexivity. Qed.
Example Clean_ex2 : filepath.Clean "a/b/../../../c/" = "../c".
Proof. reflexivity. Qed.
Example Clean_ex3 : filepath.Clean "/../a/..b/.c/.." = "/a/..b".
Proof. reflexivity. Qed.
Example Clean_ex4 : filepath.Clean "./" = ".".
Proof. reflexivity. Qed.
Example Split_ex1 : filepath.Split "/a/b/c.txt" = (lit "/a/b/", lit "c.txt").
Proof. reflexivity. Qed.
Example Split_ex2 : filepath.Split "c.txt" = (lit "", lit "c.txt").
Proof. reflexivity. Qed.
Example Split_ex3 : filepath.Split "/a/b/" = (lit "/a/b/", lit "").
Proof. reflexivity. Qed.
Example dirPart_ex : dirPart t_2024_01_15_0930 = "2024-01".
Proof. reflexivity. Qed.
Example filePart_ex : filePart t_2024_01_15_0930 = "dump-202401150930.sql".
Proof. reflexivity. Qed.
Example appendInt_ex1 : time.appendInt 10000 4 = "10000".
Proof. reflexivity. Qed.
Example appendInt_ex2 : time.appendInt (-1) 4 = "-0001".
Proof. reflexivity. Qed.
Example appendInt_ex3 : time.appendInt 7 2 = "07".
Proof. reflexivity. Qed.
Example encrypted_ex1 : encryptedBackupResult "a/dump-202401011200.sql" = "a/dump-202401011200-sql.cf".
Proof. reflexivity. Qed.
Example encrypted_ex2 : encryptedBackupResult "a.tar.gz" = "a.tar-gz.cf".
Proof. reflexivity. Qed.
Example encrypted_ex3 : encryptedBackupResult "a.d/file" = "a.d/file".
Proof. reflexivity. Qed.
Example encrypted_ex4 : encryptedBackupResult ".sql" = ".sql".
Proof. reflexivity. Qed.
Example key_ex1 : createS3Key "/ebackup/2024-01/dump-202401150930-sql.cf" = "2024-01/dump-202401150930-sql.cf".
Proof. reflexivity. Qed.
Example key_ex2 : createS3Key "file" = "./file".
Proof. reflexivity. Qed.
Example key_ex3 : createS3Key "/file" = "/file".
Proof. reflexivity. Qed.
Example backup_ex1 : createBackupFilePath "/backup" t_2024_01_15_0930 = "/backup/2024-01/dump-202401150930.sql".
Proof. reflexivity. Qed.

(** * Facts about the library functions *)

(** ** Lists of bytes *)

Lemma lex_le_refl (a : str) : lex_le a a = true.
Proof.
  induction a as [|x a IH]; simpl; [reflexivity|].
  rewrite Nat.ltb_irrefl. exact IH.
Qed.

Lemma lex_le_cons (x y : ascii) (a b : str) :
  lex_le (x :: a) (y :: b) =
  if (nat_of_ascii x <? nat_of_ascii y)%nat then true
  else if (nat_of_ascii y <? nat_of_ascii x)%nat then false
  else lex_le a b.
Proof. reflexivity. Qed.

Lemma lex_le_app (p a b : str) : lex_le (p ++ a) (p ++ b) = lex_le a b.
Proof.
  induction p as [|x p IH]; simpl; [reflexivity|].
  rewrite Nat.ltb_irrefl. exact IH.
Qed.

Lemma no_sep_app (a b : str) : no_sep a -> no_sep b -> no_sep (a ++ b).
Proof. unfold no_sep. intros. apply Forall_app. split; assumption. Qed.

Lemma no_sep_cons (c : ascii) (a : str) :
  filepath.IsPathSeparator c = false -> no_sep a -> no_sep (c :: a).
Proof. unfold no_sep. intros. constructor; assumption. Qed.

Lemma slash_terminated_app (q : str) :
  slash_terminated (q ++ [filepath.Separator]).
Proof. right. exists q. reflexivity. Qed.

(** ** filepath.Clean *)

Module CleanFacts.
Import filepath.

Lemma clean_loop_nil r st : clean_loop r [] st = st.
Proof. reflexivity. Qed.

Lemma clean_loop_cons r c p1 st :
  clean_loop r (c :: p1) st =
  if IsPathSeparator c then clean_loop r p1 st
  else if is_dot c && ends_element p1 then clean_loop r p1 st
  else
    match p1 with
    | c1 :: p2 =>
        if is_dot c && is_dot c1 && ends_element p2
        then clean_loop r p2 (dotdot_element r st)
        else copy_element (clean_loop r) (snd st) p1 (c :: add_slash r (fst st))
    | [] => copy_element (clean_loop r) (snd st) p1 (c :: add_slash r (fst st))
    end.
Proof. reflexivity. Qed.

Lemma copy_element_nil k dd out : copy_element k dd [] out = (out, dd).
Proof. reflexivity. Qed.

Lemma copy_element_cons k dd c p out :
  copy_element k dd (c :: p) out =
  if IsPathSeparator c then k (c :: p) (out, dd)
  else copy_element k dd p (c :: out).
Proof. reflexivity. Qed.

Lemma ends_element_app x c rest :
  IsPathSeparator c = true ->
  ends_element (x ++ c :: rest) = ends_element x.
Proof. intros Hc. destruct x; simpl; [exact Hc | reflexivity]. Qed.

Lemma sep_not_dot c : IsPathSeparator c = true -> is_dot c = false.
Proof.
  unfold IsPathSeparator, is_dot. intros H.
  apply Ascii.eqb_eq in H. subst c. reflexivity.
Qed.

(** Reading [x], a separator and [rest] is reading [x], then [rest]:
    the loop never looks past a separator.  The same holds from inside
    a path element. *)
Lemma clean_loop_split_upto r n :
  forall x, (length x <= n)%nat ->
    (forall st rest,
        clean_loop r (x ++ Separator :: rest) st =
        clean_loop r rest (clean_loop r x st)) /\
    (forall dd out rest,
        copy_element (clean_loop r) dd (x ++ Separator :: rest) out =
        clean_loop r rest (copy_element (clean_loop r) dd x out)).
Proof.
  induction n as [|n IH]; intros x Hlen.
  - destruct x; [|simpl in Hlen; lia].
    split; intros; reflexivity.
  - destruct x as [|c x1]; [split; intros; reflexivity|].
    simpl in Hlen.
    assert (Hx1 : (length x1 <= n)%nat) by lia.
    assert (Hloop : forall st rest,
               clean_loop r ((c :: x1) ++ Separator :: rest) st =
               clean_loop r rest (clean_loop r (c :: x1) st)).
    { intros st rest. rewrite <- app_comm_cons, !clean_loop_cons.
      rewrite ends_element_app by reflexivity.
      destruct (IsPathSeparator c) eqn:Hc; [apply (IH x1 Hx1)|].
      destruct (is_dot c && ends_element x1); [apply (IH x1 Hx1)|].
      destruct x1 as [|c1 x2].
      - simpl app. cbv beta match.
        change (is_dot Separator) with false.
        rewrite andb_false_r, andb_false_l.
        rewrite copy_element_cons, copy_element_nil.
        change (IsPathSeparator Separator) with true. cbv beta match.
        rewrite clean_loop_cons.
        change (IsPathSeparator Separator) with true. reflexivity.
      - rewrite <- app_comm_cons.
        rewrite ends_element_app by reflexivity.
        destruct (is_dot c && is_dot c1 && ends_element x2).
        + simpl in Hx1. apply (IH x2). lia.
        + rewrite app_comm_cons. apply (IH (c1 :: x2) Hx1). }
    split; [exact Hloop|].
    intros dd out rest. rewrite <- app_comm_cons, !copy_element_cons.
    destruct (IsPathSeparator c).
    + rewrite app_comm_cons. apply Hloop.
    + apply (IH x1 Hx1).
Qed.

Lemma clean_loop_split r x rest st :
  clean_loop r (x ++ Separator :: rest) st =
  clean_loop r rest (clean_loop r x st).
Proof. apply (clean_loop_split_upto r (length x) x (le_n _)). Qed.

Lemma copy_no_sep r dd e rest out :
  no_sep e -> ends_element rest = true ->
  copy_element (clean_loop r) dd (e ++ rest) out =
  clean_loop r rest (rev e ++ out, dd).
Proof.
  intros He Hrest. revert out.
  induction He as [|c e Hc He IH]; intros out.
  - destruct rest as [|c rest]; [reflexivity|].
    simpl in Hrest. simpl app. rewrite copy_element_cons, Hrest. reflexivity.
  - rewrite <- app_comm_cons, copy_element_cons, Hc, IH.
    simpl rev. rewrite <- app_assoc. reflexivity.
Qed.

(** A plain element is copied to the buffer, after a separator when
    one is due. *)
Lemma clean_loop_plain r e rest st :
  plain e -> ends_element rest = true ->
  clean_loop r (e ++ rest) st =
  clean_loop r rest (rev e ++ add_slash r (fst st), snd st).
Proof.
  intros [He (c & e' & -> & Hdot)] Hrest.
  inversion He as [|? ? Hc He']; subst.
  rewrite <- app_comm_cons, clean_loop_cons, Hc, Hdot.
  rewrite !andb_false_l.
  assert (Hcopy : copy_element (clean_loop r) (snd st) (e' ++ rest)
                    (c :: add_slash r (fst st)) =
                  clean_loop r rest (rev (c :: e') ++ add_slash r (fst st), snd st)).
  { rewrite copy_no_sep by assumption.
    simpl rev. rewrite <- app_assoc. reflexivity. }
  destruct (e' ++ rest); exact Hcopy.
Qed.

Lemma skipped_ends tail : skipped tail -> ends_element tail = true.
Proof. intros [-> | [-> | ->]]; reflexivity. Qed.

Lemma skipped_loop r tail st : skipped tail -> clean_loop r tail st = st.
Proof. intros [-> | [-> | ->]]; reflexivity. Qed.

Lemma add_slash_after_element r a o :
  a <> [] ->
  add_slash r (rev a ++ add_slash r o) = Separator :: rev a ++ add_slash r o.
Proof.
  intros Ha. unfold add_slash at 1.
  assert (Hlen : (length (rev a ++ add_slash r o) <> 0)%nat /\
                 (r = true -> length (rev a ++ add_slash r o) <> 1)%nat).
  { rewrite length_app, length_rev.
    destruct a; [congruence|]. simpl length. split; [lia|].
    intros ->. unfold add_slash. simpl.
    destruct (length o =? 1)%nat eqn:E; simpl.
    - apply Nat.eqb_eq in E. lia.
    - lia. }
  destruct Hlen as [H0 H1].
  apply Nat.eqb_neq in H0. rewrite H0.
  destruct r; simpl.
  - specialize (H1 eq_refl). apply Nat.eqb_neq in H1. rewrite H1. reflexivity.
  - reflexivity.
Qed.

Lemma finish_nonempty out dd : out <> [] -> finish (out, dd) = rev out.
Proof. unfold finish. simpl. destruct out; [congruence | reflexivity]. Qed.

(** [Clean] on a base directory followed by more input. *)
Lemma Clean_after_dir dir rest :
  Clean (dir ++ Separator :: rest) =
  finish (clean_loop (fst (dir_state dir)) rest (snd (dir_state dir))).
Proof.
  destruct dir as [|c d]; [reflexivity|].
  rewrite <- app_comm_cons. unfold Clean, dir_state.
  destruct (IsPathSeparator c) eqn:Hc; simpl fst; simpl snd.
  - rewrite clean_loop_split. reflexivity.
  - rewrite app_comm_cons, clean_loop_split. reflexivity.
Qed.

Lemma rev_app_nonempty (a : str) (x : list ascii) : a <> [] -> rev a ++ x <> [].
Proof.
  intros Ha H. apply app_eq_nil in H. destruct H as [H _].
  apply (f_equal (@rev ascii)) in H. rewrite rev_involutive in H.
  simpl in H. congruence.
Qed.

Lemma plain_nonempty e : plain e -> e <> [].
Proof. intros [_ (c & e' & -> & _)]. congruence. Qed.

(** The cleaned path of [dir/e], whatever [dir] is. *)
Lemma Clean_dir_plain dir e tail :
  plain e -> skipped tail ->
  Clean (dir ++ Separator :: e ++ tail) = clean_prefix dir ++ e.
Proof.
  intros He Ht. rewrite Clean_after_dir. unfold clean_prefix.
  destruct (dir_state dir) as [r st]. simpl fst. simpl snd.
  rewrite clean_loop_plain by (auto using skipped_ends).
  rewrite skipped_loop by assumption.
  rewrite finish_nonempty by (apply rev_app_nonempty, plain_nonempty, He).
  rewrite rev_app_distr, rev_involutive. reflexivity.
Qed.

(** The cleaned path of [dir/a/b], whatever [dir] is. *)
Lemma Clean_dir_two dir a b :
  plain a -> plain b ->
  Clean (dir ++ Separator :: a ++ Separator :: b) =
  clean_prefix dir ++ a ++ Separator :: b.
Proof.
  intros Ha Hb. rewrite Clean_after_dir. unfold clean_prefix.
  destruct (dir_state dir) as [r st]. simpl fst. simpl snd.
  rewrite clean_loop_plain by (auto; reflexivity).
  rewrite clean_loop_cons. change (IsPathSeparator Separator) with true.
  cbv beta match.
  rewrite <- (app_nil_r b) at 1.
  rewrite clean_loop_plain by (auto; reflexivity).
  rewrite clean_loop_nil. simpl fst. simpl snd.
  rewrite add_slash_after_element by (apply plain_nonempty, Ha).
  rewrite finish_nonempty by (apply rev_app_nonempty, plain_nonempty, Hb).
  rewrite rev_app_distr. simpl rev.
  rewrite rev_app_distr, !rev_involutive, <- !app_assoc. reflexivity.
Qed.

(** Whatever the loop does keeps a property of the state that its
    three ways of writing to the buffer keep. *)
Lemma clean_loop_keeps_upto r (I : lazybuf * nat -> Prop) :
  (forall st, I st -> I (dotdot_element r st)) ->
  (forall out dd c, I (out, dd) -> I (c :: out, dd)) ->
  (forall out dd, I (out, dd) -> I (add_slash r out, dd)) ->
  forall n x, (length x <= n)%nat ->
    (forall st, I st -> I (clean_loop r x st)) /\
    (forall dd out, I (out, dd) -> I (copy_element (clean_loop r) dd x out)).
Proof.
  intros Hdd Hcons Hslash.
  induction n as [|n IH]; intros x Hlen.
  - destruct x; [|simpl in Hlen; lia]. split; intros; assumption.
  - destruct x as [|c x1]; [split; intros; assumption|].
    simpl in Hlen.
    assert (Hx1 : (length x1 <= n)%nat) by lia.
    assert (Hloop : forall st, I st -> I (clean_loop r (c :: x1) st)).
    { intros [out dd] Hst. rewrite clean_loop_cons.
      destruct (IsPathSeparator c); [apply (IH x1 Hx1); assumption|].
      destruct (is_dot c && ends_element x1); [apply (IH x1 Hx1); assumption|].
      assert (Hcopy : I (copy_element (clean_loop r) (snd (out, dd)) x1
                           (c :: add_slash r (fst (out, dd))))).
      { apply (IH x1 Hx1). apply Hcons, Hslash, Hst. }
      destruct x1 as [|c1 x2]; [exact Hcopy|].
      destruct (is_dot c && is_dot c1 && ends_element x2); [|exact Hcopy].
      simpl in Hx1. apply (IH x2); [lia|]. apply Hdd, Hst. }
    split; [exact Hloop|].
    intros dd out Hst. rewrite copy_element_cons.
    destruct (IsPathSeparator c).
    + apply Hloop, Hst.
    + apply (IH x1 Hx1), Hcons, Hst.
Qed.

Lemma backtrack_rooted out :
  (exists o, out = o ++ [Separator]) -> (1 < length out)%nat ->
  exists o', backtrack 1 out = o' ++ [Separator].
Proof.
  induction out as [|c out IH]; intros [o Ho] Hlen; [simpl in Hlen; lia|].
  simpl in Hlen.
  destruct o as [|c' o]; simpl in Ho.
  { inversion Ho; subst. simpl in Hlen. lia. }
  inversion Ho; subst c' out.
  simpl backtrack.
  destruct ((1 <? length (o ++ [Separator]))%nat && negb (IsPathSeparator c)) eqn:E.
  - apply andb_prop in E. destruct E as [E _]. apply Nat.ltb_lt in E.
    apply IH; [exists o; reflexivity | exact E].
  - exists o. reflexivity.
Qed.

Lemma clean_loop_rooted x st :
  rooted_ok st -> rooted_ok (clean_loop true x st).
Proof.
  apply (clean_loop_keeps_upto true rooted_ok) with (n := length x); [| | |apply le_n].
  - intros [out dd] [Hdd [o Ho]]. simpl in Hdd, Ho. subst dd.
    unfold dotdot_element.
    destruct (1 <? length out)%nat eqn:E.
    + apply Nat.ltb_lt in E. split; [reflexivity|].
      apply backtrack_rooted; [exists o; exact Ho | exact E].
    + simpl. split; [reflexivity | exists o; exact Ho].
  - intros out dd c [Hdd [o Ho]]. simpl in Hdd, Ho. subst.
    split; [reflexivity | exists (c :: o); reflexivity].
  - intros out dd [Hdd [o Ho]]. simpl in Hdd, Ho. subst.
    split; [reflexivity|]. unfold add_slash. simpl fst.
    destruct (_ || _); [exists (Separator :: o) | exists o]; reflexivity.
Qed.

Lemma dir_state_rooted dir :
  fst (dir_state dir) = true -> rooted_ok (snd (dir_state dir)).
Proof.
  assert (H0 : rooted_ok ([Separator], 1%nat))
    by (split; [reflexivity | exists []; reflexivity]).
  destruct dir as [|c d]; [intros _; exact H0|].
  unfold dir_state. destruct (IsPathSeparator c); simpl; [|discriminate].
  intros _. apply clean_loop_rooted, H0.
Qed.

(** The cleaned base directory ends in a separator unless it is empty. *)
Lemma clean_prefix_slash_terminated dir : slash_terminated (clean_prefix dir).
Proof.
  unfold clean_prefix. pose proof (dir_state_rooted dir) as Hroot.
  destruct (dir_state dir) as [r [out dd]]. simpl in Hroot. simpl fst.
  unfold add_slash.
  destruct ((r && negb (length out =? 1)%nat) || (negb r && negb (length out =? 0)%nat)) eqn:E.
  - right. exists (rev out). reflexivity.
  - destruct r; simpl in E.
    + destruct (Hroot eq_refl) as [_ [o Ho]]. simpl in Ho. subst out.
      rewrite orb_false_r in E. apply negb_false_iff, Nat.eqb_eq in E.
      rewrite length_app in E. simpl in E.
      destruct o; [|simpl in E; lia].
      right. exists []. reflexivity.
    + apply negb_false_iff, Nat.eqb_eq in E.
      destruct out; [left; reflexivity | simpl in E; lia].
Qed.

(** After a prefix that is empty or ends in a separator, a plain last
    element stays the last element. *)
Lemma Clean_last_element q e tail :
  slash_terminated q -> plain e -> skipped tail ->
  exists q', slash_terminated q' /\ Clean (q ++ e ++ tail) = q' ++ e.
Proof.
  intros [-> | [x ->]] He Ht.
  - exists []. split; [left; reflexivity|].
    pose proof He as [Hns (c & e' & -> & Hdot)].
    inversion Hns as [|? ? Hc _]; subst.
    change ([] ++ (c :: e') ++ tail) with (c :: (e' ++ tail)).
    unfold Clean. rewrite Hc.
    change (c :: e' ++ tail) with ((c :: e') ++ tail).
    rewrite clean_loop_plain by (auto using skipped_ends).
    rewrite skipped_loop by assumption.
    rewrite finish_nonempty by (apply rev_app_nonempty; congruence).
    change (add_slash false (fst ([], 0%nat))) with (@nil ascii).
    rewrite app_nil_r, rev_involutive. reflexivity.
  - exists (clean_prefix x). split; [apply clean_prefix_slash_terminated|].
    rewrite <- app_assoc. simpl app at 2.
    apply Clean_dir_plain; assumption.
Qed.

(** ** filepath.Split and filepath.Base *)

Lemma Split_no_sep f : no_sep f -> Split f = ([], f).
Proof.
  induction 1 as [|c f Hc Hf IH]; [reflexivity|].
  simpl. rewrite IH, Hc. reflexivity.
Qed.

Lemma Split_app d f :
  slash_terminated d -> no_sep f -> Split (d ++ f) = (d, f).
Proof.
  intros Hd Hf. induction d as [|c d IH].
  - apply Split_no_sep, Hf.
  - destruct Hd as [Hd | [x Hx]]; [discriminate|].
    rewrite <- app_comm_cons. simpl Split.
    destruct d as [|c' d].
    + destruct x as [|? [|? ?]]; simpl in Hx; inversion Hx; subst.
      simpl app. rewrite (Split_no_sep f Hf). reflexivity.
    + rewrite IH.
      * simpl. rewrite orb_true_r. reflexivity.
      * right. destruct x as [|? x]; simpl in Hx; inversion Hx as [[Hc Hd]].
        exists x. exact Hd.
Qed.

Lemma Split_snd_no_sep p : no_sep (snd (Split p)).
Proof.
  induction p as [|c p IH]; [constructor|].
  simpl. destruct (Split p) as [dir file]. simpl in IH.
  destruct (IsPathSeparator c) eqn:Hc; simpl; [exact IH|].
  destruct dir; simpl; [|exact IH].
  apply no_sep_cons; assumption.
Qed.

Lemma strip_trailing_keeps p c :
  IsPathSeparator c = false -> strip_trailing (p ++ [c]) = p ++ [c].
Proof.
  intros Hc. induction p as [|x p IH]; simpl.
  - rewrite Hc. reflexivity.
  - rewrite IH. destruct (p ++ [c]) eqn:E; [|reflexivity].
    apply app_eq_nil in E. destruct E; discriminate.
Qed.

(** The basename of [q ++ e] is [e] when [e] is a plain element right
    after a separator. *)
Lemma Base_last_element q e :
  slash_terminated q -> no_sep e -> e <> [] -> Base (q ++ e) = e.
Proof.
  intros Hq He Hne. unfold Base.
  assert (Hfull : is_empty (q ++ e) = false)
    by (destruct q; destruct e; try reflexivity; congruence).
  rewrite Hfull.
  assert (Hstrip : strip_trailing (q ++ e) = q ++ e).
  { destruct (exists_last Hne) as (e0 & c & ->).
    rewrite app_assoc. apply strip_trailing_keeps.
    unfold no_sep in He. rewrite Forall_app in He. destruct He as [_ Hc].
    inversion Hc; assumption. }
  rewrite Hstrip, Split_app by assumption. simpl.
  destruct e; [congruence | reflexivity].
Qed.

End CleanFacts.

(** ** time.Format *)

Module TimeFacts.
Import time.

Open Scope Z_scope.

Lemma digit_code d : 0 <= d <= 9 -> nat_of_ascii (digit d) = (48 + Z.to_nat d)%nat.
Proof. intros Hd. unfold digit. apply nat_ascii_embedding. lia. Qed.

Lemma digit_is_digit d : 0 <= d <= 9 -> is_digit (digit d) = true.
Proof.
  intros Hd. unfold is_digit. rewrite digit_code by assumption.
  apply andb_true_intro. split; apply Nat.leb_le; lia.
Qed.

Lemma utoa_app room : forall u buf, utoa room u buf = utoa room u [] ++ buf.
Proof.
  induction room as [|room IH]; intros u buf; simpl; [reflexivity|].
  destruct (10 <=? u); [|reflexivity].
  rewrite IH, (IH _ [_]), <- app_assoc. reflexivity.
Qed.

(** With room enough, the loop does not depend on the room. *)
Lemma utoa_room room : forall room' u buf,
  0 <= u < 10 * 2 ^ Z.of_nat room -> 0 <= u < 10 * 2 ^ Z.of_nat room' ->
  utoa room u buf = utoa room' u buf.
Proof.
  induction room as [|room IH]; intros room' u buf Hu Hu'.
  - change (2 ^ Z.of_nat 0) with 1 in Hu.
    destruct room'; simpl; [reflexivity|].
    destruct (Z.leb_spec 10 u); [lia | reflexivity].
  - destruct room' as [|room'].
    + change (2 ^ Z.of_nat 0) with 1 in Hu'. simpl.
      destruct (Z.leb_spec 10 u); [lia | reflexivity].
    + simpl utoa. destruct (Z.leb_spec 10 u); [|reflexivity].
      rewrite !Nat2Z.inj_succ, !Z.pow_succ_r in Hu, Hu' by lia.
      apply IH.
      * split; [apply Z.div_pos; lia|]. apply Z.div_lt_upper_bound; lia.
      * split; [apply Z.div_pos; lia|]. apply Z.div_lt_upper_bound; lia.
Qed.

Lemma log2_bound u : 0 <= u -> u < 2 * 2 ^ Z.of_nat (Z.to_nat (Z.log2 u)).
Proof.
  intros Hu. rewrite Z2Nat.id by apply Z.log2_nonneg.
  destruct (Z.eq_dec u 0) as [-> | Hne]; [reflexivity|].
  pose proof (Z.log2_spec u ltac:(lia)) as [_ Hlt].
  rewrite Z.pow_succ_r in Hlt by apply Z.log2_nonneg.
  exact Hlt.
Qed.

Lemma log2_room u : 0 <= u -> 0 <= u < 10 * 2 ^ Z.of_nat (Z.to_nat (Z.log2 u)).
Proof. intros Hu. pose proof (log2_bound u Hu). lia. Qed.

(** The digits of [u], last digit apart. *)
Lemma digits_eq u :
  0 <= u ->
  digits u = if 10 <=? u then digits (u / 10) ++ [digit (u mod 10)] else [digit u].
Proof.
  intros Hu. unfold digits.
  rewrite (utoa_room _ (S (Z.to_nat (Z.log2 (u / 10)))) u []).
  - simpl utoa. destruct (Z.leb_spec 10 u); [|reflexivity].
    rewrite utoa_app. f_equal. f_equal. f_equal.
    rewrite Z.mod_eq by lia. lia.
  - apply log2_room, Hu.
  - rewrite Nat2Z.inj_succ, Z.pow_succ_r by lia.
    pose proof (log2_bound (u / 10) ltac:(apply Z.div_pos; lia)) as H.
    split; [assumption|].
    pose proof (Z.div_mod u 10 ltac:(lia)).
    pose proof (Z.mod_pos_bound u 10 ltac:(lia)).
    lia.
Qed.

Lemma digits_last u :
  0 <= u -> exists init d, digits u = init ++ [digit d] /\ 0 <= d <= 9.
Proof.
  intros Hu. rewrite digits_eq by assumption.
  destruct (Z.leb_spec 10 u).
  - exists (digits (u / 10)), (u mod 10). split; [reflexivity|].
    pose proof (Z.mod_pos_bound u 10 ltac:(lia)). lia.
  - exists [], u. split; [reflexivity | lia].
Qed.

Lemma digits_chars_upto n : forall u,
  0 <= u < Z.of_nat n -> Forall (fun c => is_digit c = true) (digits u).
Proof.
  induction n as [|n IH]; intros u Hu; [lia|].
  rewrite digits_eq by lia.
  destruct (Z.leb_spec 10 u).
  - apply Forall_app. split.
    + apply IH. split; [apply Z.div_pos; lia|].
      apply Z.div_lt_upper_bound; lia.
    + constructor; [|constructor]. apply digit_is_digit.
      pose proof (Z.mod_pos_bound u 10 ltac:(lia)). lia.
  - constructor; [|constructor]. apply digit_is_digit. lia.
Qed.

Lemma digits_chars u : 0 <= u -> Forall (fun c => is_digit c = true) (digits u).
Proof.
  intros Hu. apply (digits_chars_upto (S (Z.to_nat u))). lia.
Qed.

Lemma is_digit_stamp c : is_digit c = true -> stamp_char c = true.
Proof. unfold stamp_char. intros ->. reflexivity. Qed.

(** A formatted integer is made of digits and a sign. *)
Lemma appendInt_chars x w : Forall (fun c => stamp_char c = true) (appendInt x w).
Proof.
  unfold appendInt.
  apply Forall_app. split; [|apply Forall_app; split].
  - destruct (x <? 0); [|constructor].
    constructor; [reflexivity | constructor].
  - apply Forall_forall. intros c Hc. apply repeat_spec in Hc. subst. reflexivity.
  - eapply Forall_impl; [|apply digits_chars, Z.abs_nonneg].
    intros c. apply is_digit_stamp.
Qed.

(** A formatted integer ends in a digit. *)
Lemma appendInt_last x w :
  exists init c, appendInt x w = init ++ [c] /\ is_digit c = true.
Proof.
  unfold appendInt.
  destruct (digits_last (Z.abs x) (Z.abs_nonneg x)) as (init & d & E & Hd).
  exists ((if x <? 0 then lit "-" else lit "") ++
          repeat "0"%char (w - length (digits (Z.abs x))) ++ init), (digit d).
  split; [|apply digit_is_digit, Hd].
  rewrite E at 2. rewrite <- !app_assoc. reflexivity.
Qed.

Lemma appendInt_nonempty x w : appendInt x w <> [].
Proof.
  destruct (appendInt_last x w) as (init & c & -> & _).
  intros H. apply app_eq_nil in H. destruct H; discriminate.
Qed.

Lemma fixed_length w : forall x, length (fixed w x) = w.
Proof.
  induction w as [|w IH]; intros x; simpl; [reflexivity|].
  rewrite length_app, IH. simpl. lia.
Qed.

Lemma fixed_zero w : fixed w 0 = repeat "0"%char w.
Proof.
  induction w as [|w IH]; [reflexivity|].
  simpl fixed. change (0 / 10) with 0. rewrite IH.
  change (digit (0 mod 10)) with "0"%char.
  simpl repeat. rewrite repeat_cons. reflexivity.
Qed.

(** Below [10 ^ w] the zero-padded digits are the [w] last digits. *)
Lemma pad_digits_fixed w : forall x,
  0 <= x < 10 ^ Z.of_nat (S w) ->
  repeat "0"%char (S w - length (digits x)) ++ digits x = fixed (S w) x.
Proof.
  induction w as [|w IH]; intros x Hx.
  - change (10 ^ Z.of_nat 1) with 10 in Hx.
    rewrite digits_eq by lia.
    destruct (Z.leb_spec 10 x); [lia|].
    simpl. rewrite Z.mod_small by lia. reflexivity.
  - rewrite Nat2Z.inj_succ, Z.pow_succ_r in Hx by lia.
    rewrite digits_eq by lia.
    destruct (Z.leb_spec 10 x).
    + rewrite length_app. simpl length.
      replace (S (S w) - (length (digits (x / 10)) + 1))%nat
        with (S w - length (digits (x / 10)))%nat by lia.
      rewrite app_assoc, IH; [reflexivity|].
      split; [apply Z.div_pos; lia|].
      apply Z.div_lt_upper_bound; lia.
    + simpl length. replace (S (S w) - 1)%nat with (S w) by lia.
      change (fixed (S (S w)) x) with (fixed (S w) (x / 10) ++ [digit (x mod 10)]).
      rewrite Z.div_small, Z.mod_small, fixed_zero by lia. reflexivity.
Qed.

Lemma appendInt_fixed w x :
  0 <= x < 10 ^ Z.of_nat (S w) -> appendInt x (S w) = fixed (S w) x.
Proof.
  intros Hx. unfold appendInt.
  destruct (Z.ltb_spec x 0); [lia|].
  rewrite Z.abs_eq by lia. apply pad_digits_fixed, Hx.
Qed.

(** Fixed-width digits compare as the numbers do. *)
Lemma lex_le_fixed w : forall x y s1 s2,
  0 <= x < 10 ^ Z.of_nat w -> 0 <= y < 10 ^ Z.of_nat w ->
  lex_le (fixed w x ++ s1) (fixed w y ++ s2) =
  if x <? y then true else if y <? x then false else lex_le s1 s2.
Proof.
  induction w as [|w IH]; intros x y s1 s2 Hx Hy.
  - change (10 ^ Z.of_nat 0) with 1 in Hx, Hy.
    assert (x = 0) by lia. assert (y = 0) by lia. subst. reflexivity.
  - rewrite Nat2Z.inj_succ, Z.pow_succ_r in Hx, Hy by lia.
    simpl fixed. rewrite <- !app_assoc.
    pose proof (Z.div_mod x 10 ltac:(lia)) as Ex.
    pose proof (Z.div_mod y 10 ltac:(lia)) as Ey.
    pose proof (Z.mod_pos_bound x 10 ltac:(lia)) as Bx.
    pose proof (Z.mod_pos_bound y 10 ltac:(lia)) as By.
    rewrite IH.
    2: { split; [apply Z.div_pos; lia | apply Z.div_lt_upper_bound; lia]. }
    2: { split; [apply Z.div_pos; lia | apply Z.div_lt_upper_bound; lia]. }
    change ([digit (x mod 10)] ++ s1) with (digit (x mod 10) :: s1).
    change ([digit (y mod 10)] ++ s2) with (digit (y mod 10) :: s2).
    rewrite lex_le_cons, !digit_code by lia.
    destruct (Z.ltb_spec (x / 10) (y / 10)).
    { destruct (Z.ltb_spec x y); [reflexivity | lia]. }
    destruct (Z.ltb_spec (y / 10) (x / 10)).
    { destruct (Z.ltb_spec x y); [lia|].
      destruct (Z.ltb_spec y x); [reflexivity | lia]. }
    destruct (Nat.ltb_spec (48 + Z.to_nat (x mod 10)) (48 + Z.to_nat (y mod 10))).
    { destruct (Z.ltb_spec x y); [reflexivity | lia]. }
    destruct (Nat.ltb_spec (48 + Z.to_nat (y mod 10)) (48 + Z.to_nat (x mod 10))).
    { destruct (Z.ltb_spec x y); [lia|].
      destruct (Z.ltb_spec y x); [reflexivity | lia]. }
    destruct (Z.ltb_spec x y); [lia|].
    destruct (Z.ltb_spec y x); [lia | reflexivity].
Qed.

End TimeFacts.

(** ** The derived paths *)

Module PathFacts.
Import filepath time.

Ltac by_cases_on_byte c :=
  destruct c as [[] [] [] [] [] [] [] []]; vm_compute; congruence.

Lemma stamp_char_not_sep c : stamp_char c = true -> IsPathSeparator c = false.
Proof. by_cases_on_byte c. Qed.

Lemma stamp_char_not_dot c : stamp_char c = true -> is_dot c = false.
Proof. by_cases_on_byte c. Qed.

Lemma stamp_char_any c : stamp_char c = true -> regexp.any_char c = true.
Proof. by_cases_on_byte c. Qed.

Lemma is_digit_any c : is_digit c = true -> regexp.any_char c = true.
Proof. by_cases_on_byte c. Qed.

Lemma stamp_no_sep s : Forall (fun c => stamp_char c = true) s -> no_sep s.
Proof. apply Forall_impl. exact stamp_char_not_sep. Qed.

Lemma dirPart_eq t :
  dirPart t = appendInt (Year t) 4 ++ lit "-" ++ appendInt (Month t) 2.
Proof. unfold dirPart, Format. simpl. rewrite app_nil_r. reflexivity. Qed.

Lemma stamp_eq t :
  Format t layout_minute =
  appendInt (Year t) 4 ++ appendInt (Month t) 2 ++ appendInt (Day t) 2 ++
  appendInt (Hour t) 2 ++ appendInt (Minute t) 2.
Proof. unfold Format. simpl. rewrite app_nil_r. reflexivity. Qed.

Lemma dirPart_chars t : Forall (fun c => stamp_char c = true) (dirPart t).
Proof.
  rewrite dirPart_eq, !Forall_app. repeat split.
  - apply TimeFacts.appendInt_chars.
  - constructor; [reflexivity | constructor].
  - apply TimeFacts.appendInt_chars.
Qed.

Lemma stamp_chars t : Forall (fun c => stamp_char c = true) (Format t layout_minute).
Proof.
  rewrite stamp_eq, !Forall_app.
  repeat split; apply TimeFacts.appendInt_chars.
Qed.

Lemma dirPart_plain t : plain (dirPart t).
Proof.
  split; [apply stamp_no_sep, dirPart_chars|].
  pose proof (dirPart_chars t) as H.
  destruct (dirPart t) as [|c e] eqn:E.
  - rewrite dirPart_eq in E. apply app_eq_nil in E. destruct E as [E _].
    exfalso. exact (TimeFacts.appendInt_nonempty _ _ E).
  - exists c, e. split; [reflexivity|].
    inversion H; subst. apply stamp_char_not_dot. assumption.
Qed.

Lemma filePart_no_sep t : no_sep (filePart t).
Proof.
  unfold filePart. apply no_sep_app; [repeat constructor|].
  apply no_sep_app; [apply stamp_no_sep, stamp_chars | repeat constructor].
Qed.

Lemma filePart_plain t : plain (filePart t).
Proof.
  split; [apply filePart_no_sep|].
  eexists _, _. split; [reflexivity | reflexivity].
Qed.

Lemma encryptedFilePart_no_sep t : no_sep (encryptedFilePart t).
Proof.
  unfold encryptedFilePart. apply no_sep_app; [repeat constructor|].
  apply no_sep_app; [apply stamp_no_sep, stamp_chars | repeat constructor].
Qed.

(** The derived path: the cleaned base directory, the month directory
    and the file name. *)
Lemma createBackupFilePath_shape dir t :
  createBackupFilePath dir t = clean_prefix dir ++ dirPart t ++ "/" ++ filePart t.
Proof.
  unfold createBackupFilePath, ToSlash.
  change (dir ++ lit "/" ++ dirPart t ++ lit "/" ++ filePart t)
    with (dir ++ Separator :: dirPart t ++ Separator :: filePart t).
  apply CleanFacts.Clean_dir_two; [apply dirPart_plain | apply filePart_plain].
Qed.

End PathFacts.

(** ** The pattern [(.+)(\.(\w+))$] *)

Module RegexpFacts.
Import regexp.

Lemma flat_map_map {A B C} (f : B -> list C) (g : A -> B) (l : list A) :
  flat_map f (map g l) = flat_map (fun x => f (g x)) l.
Proof. induction l as [|a l IH]; simpl; [reflexivity | rewrite IH; reflexivity]. Qed.

Lemma flat_map_one {A B} (f : A -> list B) (a : A) : flat_map f [a] = f a.
Proof. simpl. apply app_nil_r. Qed.

Lemma run_Class p c rest caps :
  run (Class p) (c :: rest, caps) = if p c then [(rest, caps)] else [].
Proof. reflexivity. Qed.

Lemma run_Cat a b th : run (Cat a b) th = flat_map (run b) (run a th).
Proof. reflexivity. Qed.

Lemma run_Plus a th : run (Plus a) th = iterate (run a) (S (length (fst th))) th.
Proof. reflexivity. Qed.

Lemma run_Group i a th :
  run (Group i a) th =
  map (fun th1 => (fst th1, (i, consumed (fst th) (fst th1)) :: snd th1)) (run a th).
Proof. reflexivity. Qed.

Lemma run_EndText th : run EndText th = if is_empty (fst th) then [th] else [].
Proof. reflexivity. Qed.

Lemma iterate_S step n th :
  iterate step (S n) th =
  flat_map (fun th1 =>
              (if (length (fst th1) <? length (fst th))%nat
               then iterate step n th1 else []) ++ [th1]) (step th).
Proof. reflexivity. Qed.

(** [p+] on a class reads a non-empty run of [p] bytes, longest first. *)
Lemma iterate_class p caps : forall n s,
  (length s < n)%nat ->
  iterate (run (Class p)) n (s, caps) = map (fun r => (r, caps)) (plus_rests p s).
Proof.
  induction n as [|n IH]; intros s Hn; [lia|].
  rewrite iterate_S. destruct s as [|c t]; [reflexivity|].
  rewrite run_Class. simpl plus_rests.
  destruct (p c); [|reflexivity].
  simpl flat_map. simpl fst. simpl length.
  assert (E : (length t <? S (length t))%nat = true) by (apply Nat.ltb_lt; lia).
  rewrite E, app_nil_r, IH by (simpl in Hn; lia).
  rewrite map_app. reflexivity.
Qed.

Lemma run_plus_class p s caps :
  run (Plus (Class p)) (s, caps) = map (fun r => (r, caps)) (plus_rests p s).
Proof. rewrite run_Plus. apply iterate_class. simpl. lia. Qed.

(** Of what [p+] can leave, only the empty rest passes [$], and it is
    there when [p+] can read the whole input. *)
Lemma plus_rests_end {X} p (f : str -> X) s :
  flat_map (fun x => if is_empty x then [f x] else []) (plus_rests p s) =
  if negb (is_empty s) && forallb p s then [f []] else [].
Proof.
  induction s as [|c t IH]; [reflexivity|].
  simpl plus_rests. simpl forallb. simpl is_empty. simpl negb.
  destruct (p c); [|reflexivity].
  rewrite flat_map_app, IH. simpl flat_map. rewrite app_nil_r.
  destruct t as [|c' t]; [reflexivity|].
  simpl is_empty. simpl negb. simpl andb. apply app_nil_r.
Qed.

Lemma consumed_all s : consumed s [] = s.
Proof. unfold consumed. simpl. rewrite Nat.sub_0_r. apply firstn_all. Qed.

Lemma consumed_app g x : consumed (g ++ x) x = g.
Proof.
  unfold consumed. rewrite length_app.
  replace (length g + length x - length x)%nat with (length g) by lia.
  rewrite firstn_app, firstn_all, Nat.sub_diag. simpl. apply app_nil_r.
Qed.

Lemma run_reg_tail r caps :
  run reg_tail (r, caps) =
  if ext_tail r then [([], (2, r) :: (3, tl r) :: caps)] else [].
Proof.
  unfold reg_tail. rewrite run_Cat, run_Group, run_Cat.
  destruct r as [|c r']; [reflexivity|].
  rewrite run_Class. unfold ext_tail.
  destruct (dot_char c); [|reflexivity].
  rewrite flat_map_one.
  rewrite run_Group, run_plus_class, !map_map, flat_map_map.
  simpl fst. simpl snd. simpl andb.
  rewrite (flat_map_ext _
    (fun x => if is_empty x
              then [(fun x => (x, (2, consumed (c :: r') x) :: (3, consumed r' x) :: caps)) x]
              else [])) by (intros x; rewrite run_EndText; reflexivity).
  rewrite plus_rests_end, !consumed_all. reflexivity.
Qed.

Lemma run_reg s :
  run reg (s, []) =
  flat_map (fun x => run reg_tail (x, [(1, consumed s x)])) (plus_rests any_char s).
Proof.
  unfold reg. fold reg_tail.
  rewrite run_Cat, run_Group, run_plus_class, map_map, flat_map_map.
  reflexivity.
Qed.

Lemma plus_rests_in p s x :
  In x (plus_rests p s) ->
  exists g, g <> [] /\ s = g ++ x /\ Forall (fun c => p c = true) g.
Proof.
  revert x. induction s as [|c t IH]; intros x Hx; [destruct Hx|].
  simpl in Hx. destruct (p c) eqn:Hc; [|destruct Hx].
  apply in_app_or in Hx. destruct Hx as [Hx | [<- | []]].
  - destruct (IH x Hx) as (g & _ & -> & Hg).
    exists (c :: g). repeat split; [congruence | constructor; assumption].
  - exists [c]. repeat split; [congruence | constructor; [assumption | constructor]].
Qed.

Lemma plus_rests_all p g x :
  g <> [] -> Forall (fun c => p c = true) g -> In x (plus_rests p (g ++ x)).
Proof.
  intros Hne Hg. induction Hg as [|c g Hc Hg IH]; [congruence|].
  simpl. rewrite Hc. apply in_or_app.
  destruct g as [|c' g]; [right; left; reflexivity|].
  left. apply IH. congruence.
Qed.

Lemma ext_tail_spec r :
  ext_tail r = true <-> exists ext, r = "."%char :: ext /\ is_ext ext.
Proof.
  unfold ext_tail, is_ext. split.
  - destruct r as [|c r']; [discriminate|]. intros H.
    apply andb_prop in H. destruct H as [Hc H].
    apply andb_prop in H. destruct H as [Hne Hw].
    apply Ascii.eqb_eq in Hc. subst c. exists r'.
    repeat split; [|assumption]. destruct r'; [discriminate | congruence].
  - intros (ext & -> & Hne & Hw). rewrite Hw.
    destruct ext; [congruence | reflexivity].
Qed.

(** Every match of the pattern reads the input whole, as a non-empty
    run without line feed, a dot and an extension. *)
Lemma run_reg_sound s th :
  In th (run reg (s, [])) ->
  exists g ext,
    s = g ++ "."%char :: ext /\ g <> [] /\
    Forall (fun c => any_char c = true) g /\ is_ext ext /\
    th = ([], [(2, "."%char :: ext); (3, ext); (1, g)]).
Proof.
  rewrite run_reg, in_flat_map. intros (x & Hx & Hth).
  rewrite run_reg_tail in Hth.
  destruct (ext_tail x) eqn:E; [|destruct Hth].
  apply ext_tail_spec in E. destruct E as (ext & -> & Hext).
  destruct (plus_rests_in _ _ _ Hx) as (g & Hne & -> & Hg).
  destruct Hth as [<- | []].
  exists g, ext. rewrite consumed_app.
  split; [reflexivity|]. split; [assumption|]. split; [assumption|].
  split; [assumption | reflexivity].
Qed.

Lemma run_reg_complete g ext :
  g <> [] -> Forall (fun c => any_char c = true) g -> is_ext ext ->
  run reg (g ++ "."%char :: ext, []) <> [].
Proof.
  intros Hne Hg Hext H.
  assert (Hin : In ([], [(2, "."%char :: ext); (3, ext); (1, g)])
                   (run reg (g ++ "."%char :: ext, []))).
  { rewrite run_reg, in_flat_map. exists ("."%char :: ext).
    split; [apply plus_rests_all; assumption|].
    rewrite run_reg_tail.
    assert (E : ext_tail ("."%char :: ext) = true)
      by (apply ext_tail_spec; exists ext; split; [reflexivity | assumption]).
    rewrite E, consumed_app. left. reflexivity. }
  rewrite H in Hin. destruct Hin.
Qed.

Lemma word_no_dot a e :
  forallb word_char (a ++ "."%char :: e) = true -> False.
Proof.
  rewrite forallb_app. simpl. rewrite andb_false_r. discriminate.
Qed.

(** The last dot of a string that ends in an extension is determined. *)
Lemma last_dot_unique a : forall a' e e',
  a ++ "."%char :: e = a' ++ "."%char :: e' ->
  forallb word_char e = true -> forallb word_char e' = true ->
  a = a' /\ e = e'.
Proof.
  induction a as [|c a IH]; intros a' e e' H He He'.
  - destruct a' as [|c' a']; simpl in H; inversion H; subst.
    + split; reflexivity.
    + exfalso. exact (word_no_dot _ _ He).
  - destruct a' as [|c' a']; simpl in H; inversion H; subst.
    + exfalso. exact (word_no_dot _ _ He').
    + destruct (IH a' e e') as [-> ->]; try assumption. split; reflexivity.
Qed.

Lemma replace_all_skip r t : forall src n,
  (length src <= n)%nat -> replace_all r t n src = [].
Proof.
  induction src as [|c rest IH]; intros n Hn; [reflexivity|].
  destruct n as [|n]; simpl in Hn; [lia|].
  simpl. apply IH. lia.
Qed.

Lemma replace_all_cons r t c rest :
  replace_all r t 0 (c :: rest) =
  match run r (c :: rest, []) with
  | (after, caps) :: _ =>
      if (length after <? length (c :: rest))%nat
      then expand t caps ++ replace_all r t (length rest - length after) rest
      else c :: replace_all r t 0 rest
  | [] => c :: replace_all r t 0 rest
  end.
Proof. reflexivity. Qed.

Lemma expand_template a ext g :
  expand template [(2, a); (3, ext); (1, g)] = g ++ "-" ++ ext ++ ".cf".
Proof. unfold expand, template. simpl. reflexivity. Qed.

(** A path that ends in a dot-extension group after a byte other than
    a line feed has the extension folded into the name. *)
Lemma encryptedBackupResult_rewrites stem c ext :
  any_char c = true -> is_ext ext ->
  encryptedBackupResult (stem ++ c :: "."%char :: ext) =
  stem ++ c :: "-" ++ ext ++ ".cf".
Proof.
  intros Hc Hext. unfold encryptedBackupResult, ReplaceAllString.
  induction stem as [|x stem IH].
  - simpl app at 1. rewrite replace_all_cons.
    destruct (run reg (c :: "."%char :: ext, [])) as [|th rest] eqn:E.
    + exfalso. apply (run_reg_complete [c] ext); try assumption; [congruence|].
      constructor; [assumption | constructor].
    + assert (Hin : In th (run reg (c :: "."%char :: ext, [])))
        by (rewrite E; left; reflexivity).
      apply run_reg_sound in Hin.
      destruct Hin as (g & ext' & Hs & _ & _ & Hext' & ->).
      destruct (last_dot_unique [c] g ext ext' Hs) as [<- <-];
        [apply Hext | apply Hext' |].
      rewrite (proj2 (Nat.ltb_lt _ _)) by (simpl; lia).
      rewrite expand_template, replace_all_skip by (simpl; lia).
      rewrite app_nil_r. reflexivity.
  - rewrite <- app_comm_cons, replace_all_cons.
    destruct (run reg (x :: stem ++ c :: "."%char :: ext, [])) as [|th rest] eqn:E.
    + rewrite IH. reflexivity.
    + assert (Hin : In th (run reg (x :: stem ++ c :: "."%char :: ext, [])))
        by (rewrite E; left; reflexivity).
      apply run_reg_sound in Hin.
      destruct Hin as (g & ext' & Hs & _ & _ & Hext' & ->).
      destruct (last_dot_unique (x :: stem ++ [c]) g ext ext') as [<- <-];
        [simpl; rewrite <- app_assoc; exact Hs | apply Hext | apply Hext' |].
      rewrite (proj2 (Nat.ltb_lt _ _)) by (simpl; lia).
      rewrite expand_template, replace_all_skip by (simpl; lia).
      rewrite app_nil_r. simpl. rewrite <- app_assoc. reflexivity.
Qed.

Lemma rewritable_cons x s : rewritable s -> rewritable (x :: s).
Proof.
  intros (stem & c & ext & -> & Hc & Hext).
  exists (x :: stem), c, ext. repeat split; assumption || apply Hext.
Qed.

(** Every other path is left as it is. *)
Lemma encryptedBackupResult_identity s :
  ~ rewritable s -> encryptedBackupResult s = s.
Proof.
  unfold encryptedBackupResult, ReplaceAllString.
  induction s as [|x s IH]; intros Hs; [reflexivity|].
  rewrite replace_all_cons.
  destruct (run reg (x :: s, [])) as [|th rest] eqn:E.
  - rewrite IH; [reflexivity|]. intros H. apply Hs, rewritable_cons, H.
  - exfalso. apply Hs.
    assert (Hin : In th (run reg (x :: s, []))) by (rewrite E; left; reflexivity).
    apply run_reg_sound in Hin.
    destruct Hin as (g & ext & -> & Hne & Hg & Hext & _).
    destruct (exists_last Hne) as (stem & c & ->).
    exists stem, c, ext. rewrite <- app_assoc. split; [reflexivity|].
    split; [|assumption].
    rewrite Forall_app in Hg. destruct Hg as [_ Hg]. inversion Hg; assumption.
Qed.

End RegexpFacts.

(** ** The encrypted path and the S3 key of a derived path *)

Module ArtifactFacts.
Import filepath time.

Lemma sql_is_ext : is_ext "sql".
Proof. split; [discriminate | reflexivity]. Qed.

(** A name that ends in a digit and [.sql] becomes the name and
    [-sql.cf], whatever comes before. *)
Lemma rewrite_sql pre body :
  (exists init c, body = init ++ [c] /\ is_digit c = true) ->
  encryptedBackupResult (pre ++ body ++ ".sql") = pre ++ body ++ "-sql.cf".
Proof.
  intros (init & c & -> & Hc).
  replace (pre ++ (init ++ [c]) ++ lit ".sql")
    with ((pre ++ init) ++ c :: "."%char :: lit "sql")
    by (rewrite <- !app_assoc; reflexivity).
  rewrite RegexpFacts.encryptedBackupResult_rewrites;
    [| apply PathFacts.is_digit_any, Hc | apply sql_is_ext].
  rewrite <- !app_assoc. reflexivity.
Qed.

Lemma stamp_last t :
  exists init c, Format t layout_minute = init ++ [c] /\ is_digit c = true.
Proof.
  rewrite PathFacts.stamp_eq.
  destruct (TimeFacts.appendInt_last (Minute t) 2) as (init & c & -> & Hc).
  exists (appendInt (Year t) 4 ++ appendInt (Month t) 2 ++ appendInt (Day t) 2 ++
          appendInt (Hour t) 2 ++ init), c.
  split; [|exact Hc].
  rewrite <- !app_assoc. reflexivity.
Qed.

Lemma encrypted_filePart t : encryptedBackupResult (filePart t) = encryptedFilePart t.
Proof.
  unfold filePart, encryptedFilePart. apply rewrite_sql, stamp_last.
Qed.

(** The encrypted path: the cleaned base directory, the month directory
    and the rewritten file name. *)
Lemma encrypted_path_shape dir t :
  encryptedBackupResult (createBackupFilePath dir t) =
  clean_prefix dir ++ dirPart t ++ "/" ++ encryptedFilePart t.
Proof.
  rewrite PathFacts.createBackupFilePath_shape. unfold filePart, encryptedFilePart.
  replace (clean_prefix dir ++ dirPart t ++ lit "/" ++ lit "dump-" ++
           Format t layout_minute ++ lit ".sql")
    with ((clean_prefix dir ++ dirPart t ++ lit "/" ++ lit "dump-") ++
          Format t layout_minute ++ lit ".sql")
    by (rewrite <- !app_assoc; reflexivity).
  rewrite rewrite_sql by apply stamp_last.
  rewrite <- !app_assoc. reflexivity.
Qed.

Lemma slash_terminated_dir q e : slash_terminated ((q ++ e) ++ [Separator]).
Proof. right. exists (q ++ e). reflexivity. Qed.

(** The parent directory of [q/e/file], cleaned, ends in [e]. *)
Lemma Dir_of_file q e file :
  slash_terminated q -> plain e -> no_sep file ->
  exists q', slash_terminated q' /\ Dir (q ++ e ++ "/" ++ file) = q' ++ e.
Proof.
  intros Hq He Hf. unfold Dir.
  replace (q ++ e ++ lit "/" ++ file) with (((q ++ e) ++ [Separator]) ++ file)
    by (rewrite <- !app_assoc; reflexivity).
  rewrite CleanFacts.Split_app by (auto using slash_terminated_dir).
  simpl fst. rewrite <- !app_assoc.
  apply CleanFacts.Clean_last_element; try assumption.
  right. left. reflexivity.
Qed.

(** The key of [q/e/file] is [e/file]. *)
Lemma createS3Key_of_file q e file :
  slash_terminated q -> plain e -> no_sep file ->
  createS3Key (q ++ e ++ "/" ++ file) = e ++ "/" ++ file.
Proof.
  intros Hq He Hf. unfold createS3Key.
  replace (q ++ e ++ lit "/" ++ file) with (((q ++ e) ++ [Separator]) ++ file)
    by (rewrite <- !app_assoc; reflexivity).
  rewrite CleanFacts.Split_app by (auto using slash_terminated_dir).
  destruct (CleanFacts.Clean_last_element q e "/." Hq He) as (q' & Hq' & E).
  { right. right. reflexivity. }
  replace (((q ++ e) ++ [Separator]) ++ lit ".") with (q ++ e ++ lit "/.")
    by (rewrite <- !app_assoc; reflexivity).
  rewrite E, CleanFacts.Split_app by (assumption || apply He).
  reflexivity.
Qed.

Lemma no_sep_count e : no_sep e -> count_occ ascii_dec e Separator = 0%nat.
Proof.
  induction 1 as [|c e Hc He IH]; [reflexivity|].
  simpl. destruct (ascii_dec c Separator) as [-> | _]; [discriminate | exact IH].
Qed.

(** Whatever the path, its key has one separator. *)
Lemma createS3Key_one_separator p :
  count_occ ascii_dec (createS3Key p) Separator = 1%nat.
Proof.
  unfold createS3Key.
  pose proof (CleanFacts.Split_snd_no_sep p) as Hbase.
  destruct (Split p) as [dir base]. simpl in Hbase.
  pose proof (CleanFacts.Split_snd_no_sep (Clean (dir ++ "."))) as Hdir.
  destruct (Split (Clean (dir ++ "."))) as [d dirbase]. simpl in Hdir.
  rewrite !count_occ_app, (no_sep_count dirbase), (no_sep_count base) by assumption.
  reflexivity.
Qed.

(** The key of a derived path. *)
Lemma storage_key_shape dir t :
  createS3Key (encryptedBackupResult (createBackupFilePath dir t)) =
  dirPart t ++ "/" ++ encryptedFilePart t.
Proof.
  rewrite encrypted_path_shape.
  apply createS3Key_of_file.
  - apply CleanFacts.clean_prefix_slash_terminated.
  - apply PathFacts.dirPart_plain.
  - apply PathFacts.encryptedFilePart_no_sep.
Qed.

(** Two base directories give the same key. *)
Corollary storage_key_same_for_all_base_dirs dir1 dir2 t :
  createS3Key (encryptedBackupResult (createBackupFilePath dir1 t)) =
  createS3Key (encryptedBackupResult (createBackupFilePath dir2 t)).
Proof. rewrite !storage_key_shape. reflexivity. Qed.

End ArtifactFacts.

(** ** Lexical order of the derived paths *)

Module OrderFacts.
Import time.

Open Scope Z_scope.

Lemma lex_le_smaller_field w x y s1 s2 :
  0 <= x < 10 ^ Z.of_nat w -> 0 <= y < 10 ^ Z.of_nat w -> x < y ->
  lex_le (fixed w x ++ s1) (fixed w y ++ s2) = true.
Proof.
  intros Hx Hy Hlt. rewrite TimeFacts.lex_le_fixed by assumption.
  destruct (Z.ltb_spec x y); [reflexivity | lia].
Qed.

(** The path after the cleaned base directory, for a valid time with a
    four-digit year: fixed-width fields between literals. *)
Lemma derived_path_fixed dir t :
  valid t -> four_digit_year t ->
  createBackupFilePath dir t =
  clean_prefix dir ++ fixed 4 (Year t) ++ lit "-" ++ fixed 2 (Month t) ++ lit "/" ++
  lit "dump-" ++ fixed 4 (Year t) ++ fixed 2 (Month t) ++ fixed 2 (Day t) ++
  fixed 2 (Hour t) ++ fixed 2 (Minute t) ++ lit ".sql".
Proof.
  intros (HM & HD & Hh & Hm) HY. unfold four_digit_year in HY.
  rewrite PathFacts.createBackupFilePath_shape, PathFacts.dirPart_eq.
  unfold filePart. rewrite PathFacts.stamp_eq.
  rewrite (TimeFacts.appendInt_fixed 3 (Year t))
    by (change (10 ^ Z.of_nat 4) with 10000; lia).
  rewrite (TimeFacts.appendInt_fixed 1 (Month t)), (TimeFacts.appendInt_fixed 1 (Day t)),
    (TimeFacts.appendInt_fixed 1 (Hour t)), (TimeFacts.appendInt_fixed 1 (Minute t))
    by (change (10 ^ Z.of_nat 2) with 100; lia).
  rewrite <- !app_assoc. reflexivity.
Qed.

Lemma backup_path_order dir t1 t2 :
  valid t1 -> valid t2 -> four_digit_year t1 -> four_digit_year t2 ->
  le t1 t2 ->
  lex_le (createBackupFilePath dir t1) (createBackupFilePath dir t2) = true.
Proof.
  intros V1 V2 Y1 Y2 Hle.
  rewrite !derived_path_fixed by assumption.
  rewrite lex_le_app.
  destruct V1 as (HM1 & HD1 & Hh1 & Hm1), V2 as (HM2 & HD2 & Hh2 & Hm2).
  unfold four_digit_year in Y1, Y2.
  assert (R4 : forall x, 0 <= x <= 9999 -> 0 <= x < 10 ^ Z.of_nat 4)
    by (intros; change (10 ^ Z.of_nat 4) with 10000; lia).
  assert (R2 : forall x, 0 <= x <= 99 -> 0 <= x < 10 ^ Z.of_nat 2)
    by (intros; change (10 ^ Z.of_nat 2) with 100; lia).
  unfold le, cmp in Hle.
  destruct (Z.compare_spec (Year t1) (Year t2)) as [EY | LY | GY];
    [| apply lex_le_smaller_field; auto | congruence].
  rewrite EY, !lex_le_app.
  destruct (Z.compare_spec (Month t1) (Month t2)) as [EM | LM | GM];
    [| apply lex_le_smaller_field; auto; apply R2; lia | congruence].
  rewrite EM, !lex_le_app.
  destruct (Z.compare_spec (Day t1) (Day t2)) as [ED | LD | GD];
    [| apply lex_le_smaller_field; auto; apply R2; lia | congruence].
  rewrite ED, !lex_le_app.
  destruct (Z.compare_spec (Hour t1) (Hour t2)) as [EH | LH | GH];
    [| apply lex_le_smaller_field; auto; apply R2; lia | congruence].
  rewrite EH, !lex_le_app.
  destruct (Z.compare_spec (Minute t1) (Minute t2)) as [Em | Lm | Gm];
    [| apply lex_le_smaller_field; auto; apply R2; lia | congruence].
  rewrite Em. apply lex_le_refl.
Qed.

End OrderFacts.

(** * The pipeline *)

Module ProgramFacts.

#[local] Opaque createBackupFilePath encryptedBackupResult createS3Key filepath.Dir Itoa lit.

Lemma bind_ret {A B} (a : A) (k : A -> proc B) h : bind (ret a) k h = k a h.
Proof. reflexivity. Qed.

Lemma bind_call {A B} e (f : list event -> A) (k : A -> proc B) h :
  bind (call e f) k h = k (f h) (h ++ [e]).
Proof. reflexivity. Qed.

Lemma bind_emit {B} e (k : unit -> proc B) h : bind (emit e) k h = k tt (h ++ [e]).
Proof. reflexivity. Qed.

Lemma bind_exit {A B} code (k : A -> proc B) h : bind (os_Exit code) k h = (Exit code, h).
Proof. reflexivity. Qed.

Lemma bind_panic {A B} e (k : A -> proc B) h : bind (panic e) k h = (Panic e, h).
Proof. reflexivity. Qed.

Lemma bind_bind {A B C} (m : proc A) (f : A -> proc B) (g : B -> proc C) h :
  bind (bind m f) g h = bind m (fun x => bind (f x) g) h.
Proof. unfold bind. destruct (m h) as [[a | c | e] h']; reflexivity. Qed.

Lemma bind_getenv {B} w name (k : str -> proc B) h :
  bind (getenv w name) k h =
  if is_empty (environ w name)
  then (Exit 1, h ++ [Stderr ("cannot get env var " ++ name)])
  else k (environ w name) h.
Proof. unfold getenv. destruct (is_empty (environ w name)); reflexivity. Qed.

Lemma getenv_run w name h :
  getenv w name h =
  if is_empty (environ w name)
  then (Exit 1, h ++ [Stderr ("cannot get env var " ++ name)])
  else (Ret (environ w name), h).
Proof. unfold getenv. destruct (is_empty (environ w name)); reflexivity. Qed.

Ltac exec_step :=
  first
    [ rewrite bind_bind
    | rewrite bind_getenv
    | rewrite bind_ret
    | rewrite bind_emit
    | rewrite bind_call
    | rewrite bind_exit
    | rewrite bind_panic
    | rewrite getenv_run
    | progress cbv beta
    | progress cbn [app negb]
    | match goal with
      | |- context [if is_empty ?x then _ else _] => destruct (is_empty x) eqn:?
      | |- context [bind (match ?x with _ => _ end) _ _] => destruct x eqn:?
      | |- context [(match ?x with _ => _ end) _] => destruct x eqn:?
      end ].

Ltac exec := repeat exec_step.


Ltac exec_main :=
  unfold run_main, main;
  cbn -[getenv dumpMysql encryptBackupFile uploadToS3 getEncryptionKey];
  unfold dumpMysql, encryptBackupFile, uploadToS3, getEncryptionKey;
  exec;
  cbv [ret call emit os_Exit panic]; cbv beta; cbn [app].

Lemma no_exec_in tr pre e post :
  forallb (fun e => negb (is_exec e)) tr = true ->
  tr = pre ++ e :: post -> is_exec e = true -> False.
Proof.
  intros Hall -> He. rewrite forallb_app in Hall.
  apply andb_prop in Hall. destruct Hall as [_ Hall].
  simpl in Hall. rewrite He in Hall. discriminate.
Qed.

Lemma exec_third a b e0 rest pre e post :
  a :: b :: e0 :: rest = pre ++ e :: post ->
  is_exec a = false -> is_exec b = false ->
  forallb (fun e => negb (is_exec e)) rest = true ->
  is_exec e = true ->
  pre = [a; b] /\ e = e0.
Proof.
  intros H Ha Hb Hrest He.
  destruct pre as [|x pre]; simpl in H; inversion H; subst; [congruence|].
  destruct pre as [|y pre]; simpl in H; inversion H; subst; [congruence|].
  destruct pre as [|z pre]; simpl in H; inversion H; subst; [split; reflexivity|].
  exfalso. eapply no_exec_in; [exact Hrest | reflexivity | exact He].
Qed.

Lemma exit_status_2_mentions_2 :
  contains ("mysql backup failed: " ++ ("exit status " ++ Itoa 2) ++ "
") "2" = true.
Proof. vm_compute. reflexivity. Qed.

Lemma dump_exit_2 w r tr pre args post :
  run_main w false false = (r, tr) ->
  tr = pre ++ Exec "mysqldump" args :: post ->
  child w pre "mysqldump" args = Exited 2 ->
  r = Exit 1 /\ exists msg, In msg (stderr_of tr) /\ contains msg "2" = true.
Proof.
  intros E Htr Hch. subst tr. revert E. exec_main.
  all: intros E; inversion E as [[Hr Htr]]; clear E.
  all: try (exfalso; eapply no_exec_in; [| exact Htr | reflexivity]; reflexivity).
  all: destruct (exec_third _ _ _ _ _ _ _ Htr eq_refl eq_refl eq_refl eq_refl) as [-> Hargs].
  all: inversion Hargs; subst args; clear Hargs.
  all: rewrite Hch in *.
  all: change (cmd_Run (Exited 2)) with (Some (lit "exit status " ++ Itoa 2)) in *.
  all: try discriminate.
  all: match goal with H : Some _ = Some _ |- _ => inversion H; subst; clear H end.
  all: split; [reflexivity|].
  all: eexists; split; [left; reflexivity | apply exit_status_2_mentions_2].
Qed.

(** [encryptBackupFile] returns an error only from the steps before
    the encryption primitive: once the primitive is reached, whatever
    it and the write answer, the result is nil. *)
Lemma encryptBackupFile_result w dst key src h :
  fst (encryptBackupFile w dst key src h) = Ret None \/
  (exists e, fst (encryptBackupFile w dst key src h) = Ret (Some e) /\
             forallb (fun ev => match ev with
                                | CompressAndEncrypt _ _ | WriteFile _ _ => false
                                | _ => true
                                end)
                     (skipn (length h) (snd (encryptBackupFile w dst key src h))) = true).
Proof.
  unfold encryptBackupFile. exec.
  all: cbv [ret call emit os_Exit panic]; cbv beta; cbn [fst snd].
  all: try (left; reflexivity).
  all: right; eexists; split; [reflexivity|].
  all: rewrite <- !app_assoc, skipn_app, skipn_all, Nat.sub_diag; reflexivity.
Qed.

Lemma is_empty_nil (s : str) : is_empty s = true <-> s = [].
Proof. destruct s; simpl; split; congruence. Qed.

Lemma missing_in_list w vars :
  (exists v, In v vars /\ environ w v = []) <->
  existsb (fun v => is_empty (environ w v)) vars = true.
Proof.
  rewrite existsb_exists. split; intros (v & Hin & Hv); exists v;
    (split; [assumption | apply is_empty_nil; assumption]).
Qed.

Ltac finish_leaf :=
  repeat match goal with
         | |- _ /\ _ => split
         | |- _ -> _ => intro
         | |- aborted _ => cbn [aborted]
         end;
  try reflexivity; try discriminate; try exact I; try congruence.

(** A run with a variable missing. *)
Lemma missing_variable_run w dry r tr :
  run_main w dry false = (r, tr) ->
  existsb (fun v => is_empty (environ w v)) required_vars = true ->
  forallb (fun e => negb (is_upload e)) tr = true /\
  (dry = false -> aborted r) /\
  (is_empty (environ w backupDirEnvVar) = true ->
   r = Exit 1 /\ tr = [TimeNow; Stderr ("cannot get env var " ++ backupDirEnvVar)]) /\
  (dry = true ->
   forallb (fun e => negb (is_step e)) tr = true /\
   (existsb (fun v => is_empty (environ w v)) dry_run_vars = true -> r = Exit 1) /\
   (existsb (fun v => is_empty (environ w v)) dry_run_vars = false -> r = Ret tt)).
Proof.
  intros E Hmiss. revert E Hmiss.
  cbn [existsb required_vars dry_run_vars].
  destruct dry; exec_main.
  all: intros E Hmiss; inversion E; subst r tr; clear E.
  all: cbn [orb] in Hmiss |- *.
  all: finish_leaf.
Qed.

(** A dry run invokes no step. *)
Lemma dry_run_steps w printEnv :
  forallb (fun e => negb (is_step e)) (snd (run_main w true printEnv)) = true.
Proof.
  destruct printEnv; [reflexivity|].
  destruct (run_main w true false) as [r tr] eqn:E. revert E. exec_main.
  all: intros E; inversion E; reflexivity.
Qed.

(** A live run that completes has read the four variables of a dry
    run, and has printed six lines. *)
Lemma live_run_complete w tr :
  run_main w false false = (Ret tt, tr) ->
  existsb (fun v => is_empty (environ w v)) dry_run_vars = false /\
  stdout_of tr = [line_backed_up w; line_dstPath w; line_dst_dir w;
                  line_encrypted w; line_region w; line_key w].
Proof.
  intros E. revert E. cbn [existsb dry_run_vars]. exec_main.
  all: intros E; inversion E; subst tr; clear E.
  all: split; reflexivity.
Qed.

(** A dry run that has its four variables prints four lines. *)
Lemma dry_run_complete w :
  existsb (fun v => is_empty (environ w v)) dry_run_vars = false ->
  exists tr, run_main w true false = (Ret tt, tr) /\
             stdout_of tr = [line_backed_up w; line_encrypted w;
                             line_region w; line_key w].
Proof.
  cbn [existsb dry_run_vars]. exec_main.
  all: cbn [orb]; intros H; try discriminate.
  eexists. split; reflexivity.
Qed.

(** The clock is read once, first; and every later event is about the
    artifacts derived from that reading. *)
Lemma run_events_coherent w dry r tr :
  run_main w dry false = (r, tr) ->
  (exists rest, tr = TimeNow :: rest /\
                forallb (fun e => negb (is_now e)) rest = true) /\
  Forall (coherent_event w) tr.
Proof.
  intros E. revert E. destruct dry; exec_main.
  all: intros E; inversion E; subst r tr; clear E.
  all: split; [eexists; split; reflexivity|].
  all: repeat apply Forall_cons; try apply Forall_nil.
  all: cbn [coherent_event In]; unfold line_backed_up, line_dstPath, line_dst_dir,
         line_encrypted, line_region, line_key, storage_key, encrypted_path, plain_path.
  all: solve [ exact I | reflexivity | split; reflexivity
             | right; reflexivity
             | repeat (first [left; reflexivity | right]) ].
Qed.

End ProgramFacts.

(** * The derived artifacts *)

(** C3. For the timestamp 2024-01-15 09:30 with the base directories
    [/backup] and [/ebackup], the plain path is
    [/backup/2024-01/dump-202401150930.sql], the encrypted path is
    [/ebackup/2024-01/dump-202401150930-sql.cf] and the storage key is
    [2024-01/dump-202401150930-sql.cf]. *)
Theorem end_to_end_example :
  createBackupFilePath "/backup" t_2024_01_15_0930 =
    "/backup/2024-01/dump-202401150930.sql" /\
  encryptedBackupResult (createBackupFilePath "/ebackup" t_2024_01_15_0930) =
    "/ebackup/2024-01/dump-202401150930-sql.cf" /\
  createS3Key (encryptedBackupResult (createBackupFilePath "/ebackup" t_2024_01_15_0930)) =
    "2024-01/dump-202401150930-sql.cf".
Proof. repeat split; vm_compute; reflexivity. Qed.

(** C5, as stated, fails: [.sql] ends in a dot-extension group, and it
    comes back unchanged, not as [-sql.cf]: the pattern wants a byte
    before the dot. *)
Lemma bare_extension_unchanged :
  has_ext_group ".sql" /\
  encryptedBackupResult ".sql" = ".sql" /\
  encryptedBackupResult ".sql" <> "-sql.cf".
Proof.
  split; [|split].
  - exists [], (lit "sql"). split; [reflexivity | split; [discriminate | reflexivity]].
  - reflexivity.
  - vm_compute. discriminate.
Qed.

(** The same happens when the byte before the dot is a line feed,
    which [.] does not match. *)
Example extension_after_line_feed_unchanged :
  encryptedBackupResult ("a" ++ ["010"%char] ++ ".sql") = "a" ++ ["010"%char] ++ ".sql".
Proof. reflexivity. Qed.

(** C5, amended.  A path whose final dot-extension group comes after a
    byte other than a line feed has exactly that extension rewritten:
    [stem.ext] becomes [stem-ext.cf].  Every other path, and so every
    path with no trailing dot-extension group, is returned unchanged. *)
Theorem encryptedBackupResult_spec :
  (forall stem c ext,
      regexp.any_char c = true -> is_ext ext ->
      encryptedBackupResult (stem ++ c :: "."%char :: ext) =
      stem ++ c :: "-" ++ ext ++ ".cf") /\
  (forall s, ~ rewritable s -> encryptedBackupResult s = s).
Proof.
  split.
  - apply RegexpFacts.encryptedBackupResult_rewrites.
  - apply RegexpFacts.encryptedBackupResult_identity.
Qed.

Lemma encryptedBackupResult_spec_witness :
  encryptedBackupResult (lit "dump-20240101120" ++ "0"%char :: "."%char :: lit "sql") =
  lit "dump-20240101120" ++ "0"%char :: lit "-" ++ lit "sql" ++ lit ".cf".
Proof.
  apply (proj1 encryptedBackupResult_spec).
  - reflexivity.
  - split; [discriminate | reflexivity].
Defined.

(** A path with no trailing dot-extension group is not rewritable. *)
Lemma no_ext_group_not_rewritable s : ~ has_ext_group s -> ~ rewritable s.
Proof.
  intros H (stem & c & ext & -> & _ & Hext). apply H.
  exists (stem ++ [c]), ext. rewrite <- app_assoc. split; [reflexivity | exact Hext].
Qed.

(** C8. For every encrypted path of the pipeline the key has exactly
    one separator, and what comes before it is the basename of the
    directory the file is in. *)
Theorem storage_key_of_pipeline_path dir t :
  let enc := encryptedBackupResult (createBackupFilePath dir t) in
  count_occ ascii_dec (createS3Key enc) "/"%char = 1%nat /\
  createS3Key enc = filepath.Base (filepath.Dir enc) ++ "/" ++ filepath.Base enc.
Proof.
  intros enc. split; [apply ArtifactFacts.createS3Key_one_separator|].
  subst enc. rewrite ArtifactFacts.encrypted_path_shape.
  pose proof (CleanFacts.clean_prefix_slash_terminated dir) as Hq.
  pose proof (PathFacts.dirPart_plain t) as He.
  pose proof (PathFacts.encryptedFilePart_no_sep t) as Hf.
  rewrite ArtifactFacts.createS3Key_of_file by assumption.
  destruct (ArtifactFacts.Dir_of_file (clean_prefix dir) (dirPart t)
              (encryptedFilePart t) Hq He Hf) as (q' & Hq' & ->).
  rewrite CleanFacts.Base_last_element;
    [| assumption | apply He | apply CleanFacts.plain_nonempty, He].
  replace (clean_prefix dir ++ dirPart t ++ lit "/" ++ encryptedFilePart t)
    with (((clean_prefix dir ++ dirPart t) ++ [filepath.Separator]) ++ encryptedFilePart t)
    by (rewrite <- !app_assoc; reflexivity).
  rewrite CleanFacts.Base_last_element;
    [reflexivity | apply ArtifactFacts.slash_terminated_dir | assumption | discriminate].
Qed.

(** C10. The storage key of a derived path does not depend on the base
    directory: it is the month directory, a separator and the rewritten
    file name. *)
Theorem storage_key_independent_of_base_dir dir t :
  createS3Key (encryptedBackupResult (createBackupFilePath dir t)) =
  dirPart t ++ "/" ++ encryptedBackupResult (filePart t).
Proof.
  rewrite ArtifactFacts.encrypted_filePart. apply ArtifactFacts.storage_key_shape.
Qed.

(** C7, as stated, fails: the year is printed with as many digits as it
    has, and [10000-01] sorts before [9999-12]. *)
Lemma year_10000_sorts_first :
  let t1 := time.mkTime 9999 12 31 23 59 in
  let t2 := time.mkTime 10000 1 1 0 0 in
  time.valid t1 /\ time.valid t2 /\ time.le t1 t2 /\
  lex_le (createBackupFilePath "/backup" t1) (createBackupFilePath "/backup" t2) = false.
Proof.
  intros t1 t2. split; [|split; [|split]].
  - unfold time.valid. simpl. lia.
  - unfold time.valid. simpl. lia.
  - discriminate.
  - vm_compute. reflexivity.
Qed.

(** C7, amended.  For every base directory and all valid times
    [t1 <= t2] (at minute granularity) with years from 0 to 9999, the
    path derived for [t1] is lexically less than or equal to the path
    derived for [t2]. *)
Theorem backup_path_monotone dir t1 t2 :
  time.valid t1 -> time.valid t2 ->
  (0 <= time.Year t1 <= 9999)%Z -> (0 <= time.Year t2 <= 9999)%Z ->
  time.le t1 t2 ->
  lex_le (createBackupFilePath dir t1) (createBackupFilePath dir t2) = true.
Proof. apply OrderFacts.backup_path_order. Qed.

Lemma backup_path_monotone_witness :
  lex_le (createBackupFilePath "/backup" (time.mkTime 2024 1 15 9 30))
         (createBackupFilePath "/backup" (time.mkTime 2024 2 1 0 0)) = true.
Proof.
  apply backup_path_monotone.
  - unfold time.valid. simpl. lia.
  - unfold time.valid. simpl. lia.
  - simpl. lia.
  - simpl. lia.
  - unfold time.le. vm_compute. discriminate.
Defined.

(** * The pipeline *)

(** C1 says that a failure of the encryption primitive or of the write
    of the encrypted file makes [encryptBackupFile] return an error.
    The code assigns both errors and returns nil: in a world where
    both steps fail, [encryptBackupFile] returns nil and the process
    runs on to the upload and ends normally. *)
Theorem encryption_errors_are_dropped :
  let w := failing_encryption_world in
  snd (compress_and_encrypt w [] "k" "sql") = Some (lit "cipher: invalid key size") /\
  write_file w [] "/ebackup/2024-01/dump-202401150930-sql.cf" "" =
    Some (lit "permission denied") /\
  fst (encryptBackupFile w "/ebackup/2024-01/dump-202401150930-sql.cf" "k"
         "/backup/2024-01/dump-202401150930.sql" []) = Ret None /\
  fst (run_main w false false) = Ret tt /\
  existsb is_upload (snd (run_main w false false)) = true.
Proof. repeat split; vm_compute; reflexivity. Qed.

(** C2, as stated, fails: with the region missing, a live run aborts
    only after it has run the dump and written the encrypted file. *)
Lemma missing_region_aborts_after_files_are_written :
  let w := good_world env_without_region in
  In s3BackupRegionEnvVar required_vars /\
  environ w s3BackupRegionEnvVar = [] /\
  fst (run_main w false false) = Exit 1 /\
  In (WriteFile "/ebackup/2024-01/dump-202401150930-sql.cf" "enc")
     (snd (run_main w false false)) /\
  existsb creates_file (snd (run_main w false false)) = true.
Proof.
  intros w. split; [|split; [|split; [|split]]].
  - unfold required_vars. simpl. tauto.
  - reflexivity.
  - vm_compute. reflexivity.
  - vm_compute. tauto.
  - vm_compute. reflexivity.
Qed.

(** And a dry run does not read the database user: without it, it ends
    normally. *)
Example dry_run_ignores_missing_user :
  environ (good_world env_without_user) mysqlUserEnvVar = [] /\
  fst (run_main (good_world env_without_user) true false) = Ret tt.
Proof. split; vm_compute; reflexivity. Qed.

(** C2, amended.  In a run with a required variable missing or empty
    the upload client is never used.  A live run aborts, with exit
    code 1 or a panic, when it comes to read the variable: before any
    side effect when the variable is the plain backup directory, after
    the steps that come earlier otherwise.  A dry run invokes no step
    at all, and aborts exactly when one of the four variables it reads
    is missing. *)
Theorem missing_variable_aborts_lazily w dry :
  (exists v, In v required_vars /\ environ w v = []) ->
  forallb (fun e => negb (is_upload e)) (snd (run_main w dry false)) = true /\
  (dry = false -> aborted (fst (run_main w dry false))) /\
  (environ w backupDirEnvVar = [] ->
   run_main w dry false =
   (Exit 1, [TimeNow; Stderr ("cannot get env var " ++ backupDirEnvVar)])) /\
  (dry = true ->
   forallb (fun e => negb (is_step e)) (snd (run_main w dry false)) = true /\
   ((exists v, In v dry_run_vars /\ environ w v = []) ->
    fst (run_main w dry false) = Exit 1) /\
   ((forall v, In v dry_run_vars -> environ w v <> []) ->
    fst (run_main w dry false) = Ret tt)).
Proof.
  intros Hmiss. apply ProgramFacts.missing_in_list in Hmiss.
  destruct (run_main w dry false) as [r tr] eqn:E.
  destruct (ProgramFacts.missing_variable_run w dry r tr E Hmiss)
    as (Hup & Hlive & Hfirst & Hdry).
  cbn [fst snd]. split; [exact Hup|]. split; [exact Hlive|]. split.
  - intros Hb. apply ProgramFacts.is_empty_nil in Hb.
    destruct (Hfirst Hb) as [-> ->]. reflexivity.
  - intros Hd. destruct (Hdry Hd) as (Hsteps & Hexit & Hret).
    split; [exact Hsteps|]. split.
    + intros Hv. apply Hexit, ProgramFacts.missing_in_list, Hv.
    + intros Hall. apply Hret.
      destruct (existsb (fun v => is_empty (environ w v)) dry_run_vars) eqn:Ex;
        [|reflexivity].
      apply ProgramFacts.missing_in_list in Ex. destruct Ex as (v & Hin & Hv).
      exfalso. exact (Hall v Hin Hv).
Qed.

Lemma missing_variable_aborts_lazily_witness :
  (exists v, In v required_vars /\ environ (good_world env_without_region) v = []) /\
  forallb (fun e => negb (is_upload e))
          (snd (run_main (good_world env_without_region) false false)) = true /\
  aborted (fst (run_main (good_world env_without_region) false false)).
Proof.
  assert (H : exists v, In v required_vars /\
                        environ (good_world env_without_region) v = []).
  { exists s3BackupRegionEnvVar. split; [simpl; tauto | reflexivity]. }
  split; [exact H|].
  destruct (missing_variable_aborts_lazily (good_world env_without_region) false H)
    as (Hup & Hlive & _).
  split; [exact Hup | exact (Hlive eq_refl)].
Defined.

(** C4, as stated, fails: a live run prints two lines more than a dry
    run, the [dstPath] and [dst dir] lines of the encryption step. *)
Lemma live_run_prints_more_than_dry_run :
  let w := good_world full_env in
  fst (run_main w false false) = Ret tt /\
  fst (run_main w true false) = Ret tt /\
  length (stdout_of (snd (run_main w true false))) = 4%nat /\
  length (stdout_of (snd (run_main w false false))) = 6%nat /\
  stdout_of (snd (run_main w true false)) <> stdout_of (snd (run_main w false false)).
Proof.
  intros w. split; [|split; [|split; [|split]]]; try (vm_compute; reflexivity).
  intros H. apply (f_equal (@length str)) in H. vm_compute in H. discriminate.
Qed.

(** C4, amended.  A dry run never invokes the dump tool, the encryption
    primitive or the upload client.  Whenever the live run completes,
    the dry run completes too and prints exactly the four path and key
    lines that [main] prints in the live run, byte for byte and in the
    same order; the live run prints two more lines, those of the
    encryption step. *)
Theorem dry_run_previews_live_output w :
  forallb (fun e => negb (is_step e)) (snd (run_main w true false)) = true /\
  (fst (run_main w false false) = Ret tt ->
   fst (run_main w true false) = Ret tt /\
   stdout_of (snd (run_main w true false)) =
     [line_backed_up w; line_encrypted w; line_region w; line_key w] /\
   stdout_of (snd (run_main w false false)) =
     [line_backed_up w; line_dstPath w; line_dst_dir w;
      line_encrypted w; line_region w; line_key w]).
Proof.
  split; [apply ProgramFacts.dry_run_steps|].
  destruct (run_main w false false) as [r tr] eqn:E. cbn [fst snd].
  intros ->.
  destruct (ProgramFacts.live_run_complete w tr E) as [Hvars Hlive].
  destruct (ProgramFacts.dry_run_complete w Hvars) as (tr' & -> & Hdry).
  cbn [fst snd]. split; [reflexivity|]. split; assumption.
Qed.

Lemma dry_run_previews_live_output_witness :
  fst (run_main (good_world full_env) false false) = Ret tt /\
  stdout_of (snd (run_main (good_world full_env) true false)) =
    [line_backed_up (good_world full_env); line_encrypted (good_world full_env);
     line_region (good_world full_env); line_key (good_world full_env)].
Proof.
  assert (H : fst (run_main (good_world full_env) false false) = Ret tt)
    by (vm_compute; reflexivity).
  split; [exact H|].
  exact (proj1 (proj2 (proj2 (dry_run_previews_live_output (good_world full_env)) H))).
Defined.

(** C6. In a live run in which the dump tool exits with code 2, the
    process exits with code 1 and writes to standard error a diagnostic
    that contains [2]. *)
Theorem dump_exit_code_2_is_fatal w pre args post :
  snd (run_main w false false) = pre ++ Exec "mysqldump" args :: post ->
  child w pre "mysqldump" args = Exited 2 ->
  fst (run_main w false false) = Exit 1 /\
  exists msg, In msg (stderr_of (snd (run_main w false false))) /\
              contains msg "2" = true.
Proof.
  destruct (run_main w false false) as [r tr] eqn:E. cbn [fst snd].
  intros Htr Hch. exact (ProgramFacts.dump_exit_2 w r tr pre args post E Htr Hch).
Qed.

Lemma dump_exit_code_2_is_fatal_witness :
  fst (run_main failing_dump_world false false) = Exit 1 /\
  exists msg, In msg (stderr_of (snd (run_main failing_dump_world false false))) /\
              contains msg "2" = true.
Proof.
  apply (dump_exit_code_2_is_fatal failing_dump_world
           [TimeNow; MkdirAll "/backup/2024-01"]
           [lit "-u"; lit "clinic"; lit "-psecret"; lit "--default-character-set=utf8";
            lit "myclinic"; lit "--result-file=/backup/2024-01/dump-202401150930.sql"]
           [Stderr ("mysql backup failed: exit status 2" ++ ["010"%char])]).
  - vm_compute. reflexivity.
  - reflexivity.
Defined.

(** C9. A run reads the clock once, at its start, and every path and
    key it prints or hands to a step is one of the three artifacts
    derived from that reading, whatever the clock shows later.  The
    plain path and the encrypted path have the same month directory
    and the same minute stamp; they differ in the base directory and in
    the rewritten extension, and the storage key is the month directory
    and the encrypted file name. *)
Theorem artifacts_derive_from_one_timestamp w dry :
  let t0 := clock w [] in
  let stamp := time.Format t0 time.layout_minute in
  (exists rest, snd (run_main w dry false) = TimeNow :: rest /\
                forallb (fun e => negb (is_now e)) rest = true) /\
  Forall (coherent_event w) (snd (run_main w dry false)) /\
  plain_path w =
    clean_prefix (environ w backupDirEnvVar) ++ dirPart t0 ++ "/" ++
    "dump-" ++ stamp ++ ".sql" /\
  encrypted_path w =
    clean_prefix (environ w encryptedBackupDirEnvVar) ++ dirPart t0 ++ "/" ++
    "dump-" ++ stamp ++ "-sql.cf" /\
  storage_key w = dirPart t0 ++ "/" ++ "dump-" ++ stamp ++ "-sql.cf".
Proof.
  intros t0 stamp.
  destruct (run_main w dry false) as [r tr] eqn:E. cbn [fst snd].
  destruct (ProgramFacts.run_events_coherent w dry r tr E) as [Honce Hco].
  split; [exact Honce|]. split; [exact Hco|]. split; [|split].
  - apply PathFacts.createBackupFilePath_shape.
  - apply ArtifactFacts.encrypted_path_shape.
  - apply ArtifactFacts.storage_key_shape.
Qed.

(** * Further properties of the derived paths *)

Module CleanMore.
Import filepath.

Lemma plain_regular e : plain e -> regular e.
Proof.
  intros [Hns (c & e' & -> & Hdot)].
  split; [exact Hns|]. split; [discriminate|].
  split; intros H; inversion H; subst; discriminate.
Qed.

(** A regular element is copied to the buffer like a plain one; the
    element may begin with a dot. *)
Lemma clean_loop_regular r e rest st :
  regular e -> ends_element rest = true ->
  clean_loop r (e ++ rest) st =
  clean_loop r rest (rev e ++ add_slash r (fst st), snd st).
Proof.
  intros (Hns & Hne & Hdot1 & Hdot2) Hrest.
  destruct e as [|c e']; [congruence|].
  destruct (is_dot c) eqn:Hc.
  2: { apply CleanFacts.clean_loop_plain; [|assumption].
       split; [assumption|]. exists c, e'. split; [reflexivity | assumption]. }
  apply Ascii.eqb_eq in Hc. subst c.
  inversion Hns as [|? ? Hc He']; subst.
  destruct e' as [|c1 e'']; [exfalso; apply Hdot1; reflexivity|].
  inversion He' as [|? ? Hc1 He'']; subst.
  rewrite <- !app_comm_cons, CleanFacts.clean_loop_cons, Hc.
  change (ends_element (c1 :: e'' ++ rest)) with (IsPathSeparator c1).
  rewrite Hc1, andb_false_r.
  assert (Hcond : is_dot "."%char && is_dot c1 && ends_element (e'' ++ rest) = false).
  { destruct (is_dot c1) eqn:Hd1; [|rewrite andb_false_r; reflexivity].
    apply Ascii.eqb_eq in Hd1. subst c1.
    destruct e'' as [|c2 e3]; [exfalso; apply Hdot2; reflexivity|].
    inversion He'' as [|? ? Hc2 _]; subst. simpl. exact Hc2. }
  rewrite Hcond.
  rewrite app_comm_cons, CleanFacts.copy_no_sep by assumption.
  simpl rev. rewrite <- !app_assoc. reflexivity.
Qed.

Lemma ends_element_abs_path elements : ends_element (abs_path elements) = true.
Proof. destruct elements; reflexivity. Qed.

Lemma clean_loop_abs_path elements : forall out dd,
  Forall regular elements -> (2 <= length out)%nat ->
  clean_loop true (abs_path elements) (out, dd) =
  (rev (abs_path elements) ++ out, dd).
Proof.
  induction elements as [|a elements IH]; intros out dd Hall Hlen; [reflexivity|].
  inversion Hall as [|? ? Ha Hrest]; subst.
  change (abs_path (a :: elements)) with (Separator :: a ++ abs_path elements).
  rewrite CleanFacts.clean_loop_cons.
  change (IsPathSeparator Separator) with true. cbv beta match.
  rewrite clean_loop_regular by (auto using ends_element_abs_path).
  cbn [fst snd].
  assert (Hslash : add_slash true out = Separator :: out).
  { unfold add_slash. destruct (length out =? 1)%nat eqn:E; [|reflexivity].
    apply Nat.eqb_eq in E. lia. }
  rewrite Hslash, IH; [| assumption | rewrite length_app; simpl; lia].
  f_equal. simpl rev. rewrite rev_app_distr, <- !app_assoc. reflexivity.
Qed.

(** [Clean] leaves a rooted path of regular elements as it is. *)
Lemma Clean_abs_path elements :
  Forall regular elements -> elements <> [] ->
  Clean (abs_path elements) = abs_path elements.
Proof.
  intros Hall Hne. destruct elements as [|a elements]; [congruence|].
  inversion Hall as [|? ? Ha Hrest]; subst.
  change (abs_path (a :: elements)) with (Separator :: a ++ abs_path elements).
  unfold Clean. change (IsPathSeparator Separator) with true. cbv beta match zeta.
  rewrite clean_loop_regular by (auto using ends_element_abs_path).
  cbn [fst snd]. change (add_slash true [Separator]) with [Separator].
  destruct Ha as (_ & Hane & _).
  rewrite clean_loop_abs_path;
    [| assumption
     | rewrite length_app, length_rev; destruct a; [congruence | simpl; lia]].
  rewrite CleanFacts.finish_nonempty.
  - rewrite !rev_app_distr, !rev_involutive. reflexivity.
  - intros H. apply app_eq_nil in H. destruct H as [_ H].
    apply app_eq_nil in H. destruct H; discriminate.
Qed.

Lemma dir_state_trailing_slash dir :
  dir_state (dir ++ [Separator]) = dir_state dir.
Proof.
  destruct dir as [|c d]; [reflexivity|].
  rewrite <- app_comm_cons. unfold dir_state.
  destruct (IsPathSeparator c).
  - rewrite CleanFacts.clean_loop_split. reflexivity.
  - rewrite app_comm_cons, CleanFacts.clean_loop_split. reflexivity.
Qed.

End CleanMore.

Module PathMore.
Import filepath time.

Open Scope Z_scope.

Lemma abs_path_two elements a b :
  abs_path (elements ++ [a; b]) = abs_path elements ++ Separator :: a ++ Separator :: b.
Proof.
  unfold abs_path. rewrite flat_map_app. simpl. rewrite app_nil_r. reflexivity.
Qed.

Lemma regular_dir_path elements t :
  Forall regular elements ->
  createBackupFilePath (abs_path elements) t =
  abs_path elements ++ "/" ++ dirPart t ++ "/" ++ filePart t.
Proof.
  intros Hall. unfold createBackupFilePath, ToSlash.
  change (abs_path elements ++ lit "/" ++ dirPart t ++ lit "/" ++ filePart t)
    with (abs_path elements ++ Separator :: dirPart t ++ Separator :: filePart t).
  rewrite <- abs_path_two. apply CleanMore.Clean_abs_path.
  - apply Forall_app. split; [assumption|].
    constructor; [apply CleanMore.plain_regular, PathFacts.dirPart_plain|].
    constructor; [apply CleanMore.plain_regular, PathFacts.filePart_plain | constructor].
  - destruct elements; discriminate.
Qed.

Lemma clean_prefix_trailing_slash dir :
  clean_prefix (dir ++ [Separator]) = clean_prefix dir.
Proof. unfold clean_prefix. rewrite CleanMore.dir_state_trailing_slash. reflexivity. Qed.

Lemma lex_le_larger_field w x y s1 s2 :
  0 <= x < 10 ^ Z.of_nat w -> 0 <= y < 10 ^ Z.of_nat w -> x < y ->
  lex_le (fixed w y ++ s1) (fixed w x ++ s2) = false.
Proof.
  intros Hx Hy Hlt. rewrite TimeFacts.lex_le_fixed by assumption.
  destruct (Z.ltb_spec y x); [lia|].
  destruct (Z.ltb_spec x y); [reflexivity | lia].
Qed.

(** A later minute gives a path that is not below the earlier one's. *)
Lemma backup_path_strict dir t1 t2 :
  valid t1 -> valid t2 -> four_digit_year t1 -> four_digit_year t2 ->
  cmp t1 t2 = Lt ->
  lex_le (createBackupFilePath dir t2) (createBackupFilePath dir t1) = false.
Proof.
  intros V1 V2 Y1 Y2 Hlt.
  rewrite !OrderFacts.derived_path_fixed by assumption.
  rewrite lex_le_app.
  destruct V1 as (HM1 & HD1 & Hh1 & Hm1), V2 as (HM2 & HD2 & Hh2 & Hm2).
  unfold four_digit_year in Y1, Y2.
  assert (R4 : forall x, 0 <= x <= 9999 -> 0 <= x < 10 ^ Z.of_nat 4)
    by (intros; change (10 ^ Z.of_nat 4) with 10000; lia).
  assert (R2 : forall x, 0 <= x <= 99 -> 0 <= x < 10 ^ Z.of_nat 2)
    by (intros; change (10 ^ Z.of_nat 2) with 100; lia).
  unfold cmp in Hlt.
  destruct (Z.compare_spec (Year t1) (Year t2)) as [EY | LY | GY];
    [| apply lex_le_larger_field; auto | discriminate].
  rewrite EY, !lex_le_app.
  destruct (Z.compare_spec (Month t1) (Month t2)) as [EM | LM | GM];
    [| apply lex_le_larger_field; auto; apply R2; lia | discriminate].
  rewrite EM, !lex_le_app.
  destruct (Z.compare_spec (Day t1) (Day t2)) as [ED | LD | GD];
    [| apply lex_le_larger_field; auto; apply R2; lia | discriminate].
  rewrite ED, !lex_le_app.
  destruct (Z.compare_spec (Hour t1) (Hour t2)) as [EH | LH | GH];
    [| apply lex_le_larger_field; auto; apply R2; lia | discriminate].
  rewrite EH, !lex_le_app.
  destruct (Z.compare_spec (Minute t1) (Minute t2)) as [Em | Lm | Gm];
    [discriminate | apply lex_le_larger_field; auto; apply R2; lia | discriminate].
Qed.

Lemma cmp_Eq a b : cmp a b = Eq -> a = b.
Proof.
  unfold cmp. destruct a as [y1 m1 d1 h1 n1], b as [y2 m2 d2 h2 n2]. simpl.
  destruct (Z.compare_spec y1 y2); try discriminate.
  destruct (Z.compare_spec m1 m2); try discriminate.
  destruct (Z.compare_spec d1 d2); try discriminate.
  destruct (Z.compare_spec h1 h2); try discriminate.
  destruct (Z.compare_spec n1 n2); try discriminate.
  intros _. subst. reflexivity.
Qed.

Lemma cmp_Gt a b : cmp a b = Gt -> cmp b a = Lt.
Proof.
  unfold cmp. destruct a as [y1 m1 d1 h1 n1], b as [y2 m2 d2 h2 n2]. simpl.
  rewrite (Z.compare_antisym y1 y2), (Z.compare_antisym m1 m2),
    (Z.compare_antisym d1 d2), (Z.compare_antisym h1 h2), (Z.compare_antisym n1 n2).
  destruct (y1 ?= y2); simpl; try congruence.
  destruct (m1 ?= m2); simpl; try congruence.
  destruct (d1 ?= d2); simpl; try congruence.
  destruct (h1 ?= h2); simpl; try congruence.
  destruct (n1 ?= n2); simpl; congruence.
Qed.

Lemma backup_path_same_minute dir t1 t2 :
  valid t1 -> valid t2 -> four_digit_year t1 -> four_digit_year t2 ->
  createBackupFilePath dir t1 = createBackupFilePath dir t2 -> t1 = t2.
Proof.
  intros V1 V2 Y1 Y2 E.
  destruct (cmp t1 t2) eqn:C.
  - apply cmp_Eq, C.
  - pose proof (backup_path_strict dir t1 t2 V1 V2 Y1 Y2 C) as H.
    rewrite E, lex_le_refl in H. discriminate.
  - pose proof (backup_path_strict dir t2 t1 V2 V1 Y2 Y1 (cmp_Gt _ _ C)) as H.
    rewrite E, lex_le_refl in H. discriminate.
Qed.

Lemma base_of_derived_path dir t :
  Base (createBackupFilePath dir t) = filePart t /\
  Base (Dir (createBackupFilePath dir t)) = dirPart t.
Proof.
  rewrite PathFacts.createBackupFilePath_shape.
  pose proof (CleanFacts.clean_prefix_slash_terminated dir) as Hq.
  pose proof (PathFacts.dirPart_plain t) as He.
  pose proof (PathFacts.filePart_no_sep t) as Hf.
  split.
  - replace (clean_prefix dir ++ dirPart t ++ lit "/" ++ filePart t)
      with (((clean_prefix dir ++ dirPart t) ++ [Separator]) ++ filePart t)
      by (rewrite <- !app_assoc; reflexivity).
    apply CleanFacts.Base_last_element;
      [apply ArtifactFacts.slash_terminated_dir | assumption | discriminate].
  - destruct (ArtifactFacts.Dir_of_file (clean_prefix dir) (dirPart t)
                (filePart t) Hq He Hf) as (q' & Hq' & ->).
    apply CleanFacts.Base_last_element;
      [assumption | apply He | apply CleanFacts.plain_nonempty, He].
Qed.

Lemma fixed_width_names t :
  valid t -> four_digit_year t ->
  length (dirPart t) = 7%nat /\ length (filePart t) = 21%nat.
Proof.
  intros (HM & HD & Hh & Hm) HY. unfold four_digit_year in HY.
  unfold filePart. rewrite PathFacts.dirPart_eq, PathFacts.stamp_eq.
  rewrite (TimeFacts.appendInt_fixed 3 (Year t))
    by (change (10 ^ Z.of_nat 4) with 10000; lia).
  rewrite (TimeFacts.appendInt_fixed 1 (Month t)), (TimeFacts.appendInt_fixed 1 (Day t)),
    (TimeFacts.appendInt_fixed 1 (Hour t)), (TimeFacts.appendInt_fixed 1 (Minute t))
    by (change (10 ^ Z.of_nat 2) with 100; lia).
  rewrite !length_app, !TimeFacts.fixed_length. split; reflexivity.
Qed.

End PathMore.

(** X1. For a fixed base directory, valid times and four-digit years,
    a strictly later minute gives a path strictly above the earlier
    one's in lexical order: the later path is not below or equal. *)
Theorem backup_path_strictly_increasing dir t1 t2 :
  time.valid t1 -> time.valid t2 ->
  (0 <= time.Year t1 <= 9999)%Z -> (0 <= time.Year t2 <= 9999)%Z ->
  time.cmp t1 t2 = Lt ->
  lex_le (createBackupFilePath dir t2) (createBackupFilePath dir t1) = false.
Proof. apply PathMore.backup_path_strict. Qed.

Lemma backup_path_strictly_increasing_witness :
  lex_le (createBackupFilePath "/backup" (time.mkTime 2024 1 15 9 31))
         (createBackupFilePath "/backup" (time.mkTime 2024 1 15 9 30)) = false.
Proof.
  apply backup_path_strictly_increasing.
  - unfold time.valid. simpl. lia.
  - unfold time.valid. simpl. lia.
  - simpl. lia.
  - simpl. lia.
  - reflexivity.
Defined.

(** X2. For a fixed base directory, two valid times with four-digit
    years get the same path only if they are the same minute: runs
    collide within one minute and never otherwise. *)
Theorem backup_path_injective dir t1 t2 :
  time.valid t1 -> time.valid t2 ->
  (0 <= time.Year t1 <= 9999)%Z -> (0 <= time.Year t2 <= 9999)%Z ->
  createBackupFilePath dir t1 = createBackupFilePath dir t2 -> t1 = t2.
Proof. apply PathMore.backup_path_same_minute. Qed.

Lemma backup_path_injective_witness :
  time.mkTime 2024 1 15 9 30 = time.mkTime 2024 1 15 9 30.
Proof.
  apply (backup_path_injective "/backup").
  - unfold time.valid. simpl. lia.
  - unfold time.valid. simpl. lia.
  - simpl. lia.
  - simpl. lia.
  - reflexivity.
Defined.

(** X3. A separator at the end of the base directory changes nothing. *)
Theorem backup_path_ignores_trailing_slash dir t :
  createBackupFilePath (dir ++ "/") t = createBackupFilePath dir t.
Proof.
  rewrite !PathFacts.createBackupFilePath_shape.
  change (dir ++ lit "/") with (dir ++ [filepath.Separator]).
  rewrite PathMore.clean_prefix_trailing_slash. reflexivity.
Qed.

(** X4. With an empty base directory the path is at the root of the
    file system; with the base directory [.] it is relative, with no
    [./] in front. *)
Theorem backup_path_of_empty_and_dot_dir t :
  createBackupFilePath "" t = "/" ++ dirPart t ++ "/" ++ filePart t /\
  createBackupFilePath "." t = dirPart t ++ "/" ++ filePart t.
Proof. split; rewrite PathFacts.createBackupFilePath_shape; reflexivity. Qed.

(** X5. For a rooted base directory made of elements other than [.]
    and [..], one separator between them, the path is the base
    directory, the month directory and the file name, joined by
    separators. *)
Theorem backup_path_of_regular_dir elements t :
  Forall regular elements ->
  createBackupFilePath (abs_path elements) t =
  abs_path elements ++ "/" ++ dirPart t ++ "/" ++ filePart t.
Proof. apply PathMore.regular_dir_path. Qed.

Lemma backup_path_of_regular_dir_witness :
  createBackupFilePath (abs_path [lit "var"; lit ".backup"]) t_2024_01_15_0930 =
  abs_path [lit "var"; lit ".backup"] ++ "/" ++ dirPart t_2024_01_15_0930 ++ "/" ++
  filePart t_2024_01_15_0930.
Proof.
  apply backup_path_of_regular_dir.
  repeat constructor; discriminate.
Defined.

(** X6. Whatever the base directory, the last element of the derived
    path is the file name of the minute and the last element of its
    directory is the month directory. *)
Theorem backup_path_base_and_parent dir t :
  filepath.Base (createBackupFilePath dir t) = filePart t /\
  filepath.Base (filepath.Dir (createBackupFilePath dir t)) = dirPart t.
Proof. apply PathMore.base_of_derived_path. Qed.

(** X7. For a valid time with a four-digit year the month directory
    has 7 bytes and the file name 21. *)
Theorem derived_names_have_fixed_width t :
  time.valid t -> (0 <= time.Year t <= 9999)%Z ->
  length (dirPart t) = 7%nat /\ length (filePart t) = 21%nat.
Proof. apply PathMore.fixed_width_names. Qed.

Lemma derived_names_have_fixed_width_witness :
  length (dirPart t_2024_01_15_0930) = 7%nat /\
  length (filePart t_2024_01_15_0930) = 21%nat.
Proof.
  apply derived_names_have_fixed_width.
  - unfold time.valid. simpl. lia.
  - simpl. lia.
Defined.

(** * Further properties of the encrypted path and the key *)

Module RewriteMore.
Import filepath regexp.

Lemma word_char_not_sep c : word_char c = true -> IsPathSeparator c = false.
Proof. PathFacts.by_cases_on_byte c. Qed.

Lemma word_char_any c : word_char c = true -> any_char c = true.
Proof. PathFacts.by_cases_on_byte c. Qed.

Lemma rewritable_decidable s : rewritable s \/ ~ rewritable s.
Proof.
  induction s as [|x t IH].
  - right. intros (stem & c & ext & H & _). destruct stem; discriminate.
  - destruct IH as [IH | IH]; [left; apply RegexpFacts.rewritable_cons, IH|].
    destruct (any_char x && ext_tail t) eqn:E.
    + left. apply andb_prop in E. destruct E as [Hx Ht].
      apply RegexpFacts.ext_tail_spec in Ht. destruct Ht as (ext & -> & Hext).
      exists [], x, ext. split; [reflexivity | split; assumption].
    + right. intros (stem & c & ext & H & Hc & Hext).
      destruct stem as [|y stem]; simpl in H; inversion H; subst.
      * assert (Ht : ext_tail ("."%char :: ext) = true)
          by (apply RegexpFacts.ext_tail_spec; exists ext; split; [reflexivity | assumption]).
        rewrite Hc, Ht in E. discriminate.
      * apply IH. exists stem, c, ext. split; [reflexivity | split; assumption].
Qed.

(** What the derivation does, case by case. *)
Lemma encryptedBackupResult_cases s :
  (exists stem c ext,
      s = stem ++ c :: "."%char :: ext /\ any_char c = true /\ is_ext ext /\
      encryptedBackupResult s = stem ++ c :: "-" ++ ext ++ ".cf") \/
  (~ rewritable s /\ encryptedBackupResult s = s).
Proof.
  destruct (rewritable_decidable s) as [(stem & c & ext & -> & Hc & Hext) | H].
  - left. exists stem, c, ext. split; [reflexivity|]. split; [assumption|].
    split; [assumption|].
    apply RegexpFacts.encryptedBackupResult_rewrites; assumption.
  - right. split; [assumption|].
    apply RegexpFacts.encryptedBackupResult_identity, H.
Qed.

Lemma ext_last ext :
  is_ext ext -> exists e0 l, ext = e0 ++ [l] /\ word_char l = true.
Proof.
  intros [Hne Hw]. destruct (exists_last Hne) as (e0 & l & ->).
  exists e0, l. split; [reflexivity|].
  rewrite forallb_app in Hw. apply andb_prop in Hw. destruct Hw as [_ Hw].
  simpl in Hw. rewrite andb_true_r in Hw. exact Hw.
Qed.

Lemma cf_is_ext : is_ext "cf".
Proof. split; [discriminate | reflexivity]. Qed.

(** A rewritten path ends in an extension again. *)
Lemma rewritten_shape stem c ext :
  is_ext ext ->
  exists b0 l,
    stem ++ c :: "-" ++ ext ++ ".cf" = b0 ++ l :: "."%char :: lit "cf" /\
    stem ++ c :: "-" ++ ext = b0 ++ [l] /\ any_char l = true.
Proof.
  intros Hext. destruct (ext_last ext Hext) as (e0 & l & -> & Hl).
  exists (stem ++ c :: "-" ++ e0), l.
  split; [|split; [|apply word_char_any, Hl]].
  - repeat (rewrite <- app_assoc || rewrite <- app_comm_cons). reflexivity.
  - repeat (rewrite <- app_assoc || rewrite <- app_comm_cons). reflexivity.
Qed.

Lemma rewritten_rewritable stem c ext :
  is_ext ext -> rewritable (stem ++ c :: "-" ++ ext ++ ".cf").
Proof.
  intros Hext. destruct (rewritten_shape stem c ext Hext) as (b0 & l & -> & _ & Hl).
  exists b0, l, (lit "cf"). split; [reflexivity | split; [assumption | apply cf_is_ext]].
Qed.

Lemma word_no_dash a e :
  forallb word_char (a ++ "-"%char :: e) = true -> False.
Proof.
  rewrite forallb_app. simpl. rewrite andb_false_r. discriminate.
Qed.

(** The last dash before a run of word characters is determined. *)
Lemma last_dash_unique a : forall a' e e',
  a ++ "-"%char :: e = a' ++ "-"%char :: e' ->
  forallb word_char e = true -> forallb word_char e' = true ->
  a = a' /\ e = e'.
Proof.
  induction a as [|c a IH]; intros a' e e' H He He'.
  - destruct a' as [|c' a']; simpl in H; inversion H; subst.
    + split; reflexivity.
    + exfalso. exact (word_no_dash _ _ He).
  - destruct a' as [|c' a']; simpl in H; inversion H; subst.
    + exfalso. exact (word_no_dash _ _ He').
    + destruct (IH a' e e') as [-> ->]; try assumption. split; reflexivity.
Qed.

Lemma encryptedBackupResult_one_to_one s1 s2 :
  encryptedBackupResult s1 = encryptedBackupResult s2 -> s1 = s2.
Proof.
  intros E.
  destruct (encryptedBackupResult_cases s1)
    as [(stem1 & c1 & ext1 & -> & Hc1 & Hext1 & R1) | [N1 R1]];
  destruct (encryptedBackupResult_cases s2)
    as [(stem2 & c2 & ext2 & -> & Hc2 & Hext2 & R2) | [N2 R2]];
  rewrite R1, R2 in E.
  - replace (stem1 ++ c1 :: lit "-" ++ ext1 ++ lit ".cf")
      with (((stem1 ++ [c1]) ++ "-"%char :: ext1) ++ lit ".cf") in E
      by (rewrite <- !app_assoc; reflexivity).
    replace (stem2 ++ c2 :: lit "-" ++ ext2 ++ lit ".cf")
      with (((stem2 ++ [c2]) ++ "-"%char :: ext2) ++ lit ".cf") in E
      by (rewrite <- !app_assoc; reflexivity).
    apply app_inv_tail in E.
    destruct (last_dash_unique _ _ _ _ E) as [Ea Ee];
      [apply Hext1 | apply Hext2 |].
    subst ext2.
    replace (stem1 ++ c1 :: "."%char :: ext1) with ((stem1 ++ [c1]) ++ "."%char :: ext1)
      by (rewrite <- app_assoc; reflexivity).
    rewrite Ea, <- app_assoc. reflexivity.
  - exfalso. apply N2. rewrite <- E. apply rewritten_rewritable, Hext1.
  - exfalso. apply N1. rewrite E. apply rewritten_rewritable, Hext2.
  - exact E.
Qed.

Lemma Split_fst_app x t :
  no_sep t -> fst (Split (x ++ t)) = fst (Split x).
Proof.
  intros Ht. induction x as [|c x IH].
  - simpl app. rewrite (CleanFacts.Split_no_sep t Ht). reflexivity.
  - rewrite <- app_comm_cons. simpl Split.
    destruct (Split (x ++ t)) as [d f], (Split x) as [d' f'].
    simpl in IH. subst d'.
    destruct (IsPathSeparator c || negb (is_empty d)); reflexivity.
Qed.

Lemma ext_no_sep ext : is_ext ext -> no_sep ext.
Proof.
  intros [_ Hw]. apply Forall_forall. intros c Hc.
  rewrite forallb_forall in Hw. apply word_char_not_sep, Hw, Hc.
Qed.

Lemma encryptedBackupResult_same_dir s :
  fst (Split (encryptedBackupResult s)) = fst (Split s).
Proof.
  destruct (encryptedBackupResult_cases s)
    as [(stem & c & ext & -> & Hc & Hext & ->) | [_ ->]]; [|reflexivity].
  replace (stem ++ c :: lit "-" ++ ext ++ lit ".cf")
    with ((stem ++ [c]) ++ lit "-" ++ ext ++ lit ".cf")
    by (rewrite <- !app_assoc; reflexivity).
  replace (stem ++ c :: "."%char :: ext) with ((stem ++ [c]) ++ "."%char :: ext)
    by (rewrite <- !app_assoc; reflexivity).
  rewrite (Split_fst_app (stem ++ [c]) (lit "-" ++ ext ++ lit ".cf")).
  - rewrite (Split_fst_app (stem ++ [c]) ("."%char :: ext)); [reflexivity|].
    apply no_sep_cons; [reflexivity | apply ext_no_sep, Hext].
  - apply no_sep_app; [repeat constructor|].
    apply no_sep_app; [apply ext_no_sep, Hext | repeat constructor].
Qed.

Lemma encryptedBackupResult_twice stem c ext :
  any_char c = true -> is_ext ext ->
  encryptedBackupResult (encryptedBackupResult (stem ++ c :: "."%char :: ext)) =
  stem ++ c :: "-" ++ ext ++ "-cf.cf".
Proof.
  intros Hc Hext.
  rewrite RegexpFacts.encryptedBackupResult_rewrites by assumption.
  destruct (rewritten_shape stem c ext Hext) as (b0 & l & -> & Hb & Hl).
  rewrite RegexpFacts.encryptedBackupResult_rewrites by (assumption || apply cf_is_ext).
  replace (b0 ++ l :: lit "-" ++ lit "cf" ++ lit ".cf")
    with ((b0 ++ [l]) ++ lit "-cf.cf") by (rewrite <- !app_assoc; reflexivity).
  rewrite <- Hb, <- !app_assoc. reflexivity.
Qed.

End RewriteMore.

(** X8. The derivation of the encrypted path is one to one: two
    different paths never get the same encrypted path. *)
Theorem encryptedBackupResult_injective s1 s2 :
  encryptedBackupResult s1 = encryptedBackupResult s2 -> s1 = s2.
Proof. apply RewriteMore.encryptedBackupResult_one_to_one. Qed.

Lemma encryptedBackupResult_injective_witness : lit "a.sql" = lit "a.sql".
Proof. apply encryptedBackupResult_injective. reflexivity. Defined.

(** X9. The encrypted path is in the directory of the path it is
    derived from: the rewrite touches the file name only. *)
Theorem encryptedBackupResult_keeps_directory s :
  fst (filepath.Split (encryptedBackupResult s)) = fst (filepath.Split s) /\
  filepath.Dir (encryptedBackupResult s) = filepath.Dir s.
Proof.
  unfold filepath.Dir. rewrite RewriteMore.encryptedBackupResult_same_dir.
  split; reflexivity.
Qed.

(** X10. The derivation does not recognise its own result: applied to
    a rewritten path it rewrites again, and [stem.ext] ends up as
    [stem-ext-cf.cf]. *)
Theorem encryptedBackupResult_applied_twice stem c ext :
  regexp.any_char c = true -> is_ext ext ->
  encryptedBackupResult (encryptedBackupResult (stem ++ c :: "."%char :: ext)) =
  stem ++ c :: "-" ++ ext ++ "-cf.cf".
Proof. apply RewriteMore.encryptedBackupResult_twice. Qed.

Lemma encryptedBackupResult_applied_twice_witness :
  encryptedBackupResult
    (encryptedBackupResult (lit "dump" ++ "1"%char :: "."%char :: lit "sql")) =
  lit "dump" ++ "1"%char :: lit "-" ++ lit "sql" ++ lit "-cf.cf".
Proof.
  apply encryptedBackupResult_applied_twice.
  - reflexivity.
  - split; [discriminate | reflexivity].
Defined.

Module KeyMore.
Import filepath.

Lemma regular_nonempty e : regular e -> e <> [].
Proof. intros (_ & H & _). exact H. Qed.

Lemma Clean_dir_regular dir e tail :
  regular e -> skipped tail ->
  Clean (dir ++ Separator :: e ++ tail) = clean_prefix dir ++ e.
Proof.
  intros He Ht. rewrite CleanFacts.Clean_after_dir. unfold clean_prefix.
  destruct (dir_state dir) as [r st]. simpl fst. simpl snd.
  rewrite CleanMore.clean_loop_regular by (auto using CleanFacts.skipped_ends).
  rewrite CleanFacts.skipped_loop by assumption.
  rewrite CleanFacts.finish_nonempty
    by (apply CleanFacts.rev_app_nonempty, regular_nonempty, He).
  rewrite rev_app_distr, rev_involutive. reflexivity.
Qed.

Lemma Clean_last_regular q e tail :
  slash_terminated q -> regular e -> skipped tail ->
  exists q', slash_terminated q' /\ Clean (q ++ e ++ tail) = q' ++ e.
Proof.
  intros [-> | [x ->]] He Ht.
  - exists []. split; [left; reflexivity|].
    pose proof He as (Hns & Hne & _).
    destruct e as [|c e']; [congruence|].
    inversion Hns as [|? ? Hc _]; subst.
    change ([] ++ (c :: e') ++ tail) with (c :: (e' ++ tail)).
    unfold Clean. rewrite Hc.
    change (c :: e' ++ tail) with ((c :: e') ++ tail).
    rewrite CleanMore.clean_loop_regular by (auto using CleanFacts.skipped_ends).
    rewrite CleanFacts.skipped_loop by assumption.
    rewrite CleanFacts.finish_nonempty by (apply CleanFacts.rev_app_nonempty; congruence).
    change (add_slash false (fst ([], 0%nat))) with (@nil ascii).
    rewrite app_nil_r, rev_involutive. reflexivity.
  - exists (clean_prefix x). split; [apply CleanFacts.clean_prefix_slash_terminated|].
    rewrite <- app_assoc. simpl app at 2.
    apply Clean_dir_regular; assumption.
Qed.

(** The key of [q/e/file] is [e/file], for a regular directory name
    [e]. *)
Lemma createS3Key_regular q e file :
  slash_terminated q -> regular e -> no_sep file ->
  createS3Key (q ++ e ++ "/" ++ file) = e ++ "/" ++ file.
Proof.
  intros Hq He Hf. unfold createS3Key.
  replace (q ++ e ++ lit "/" ++ file) with (((q ++ e) ++ [Separator]) ++ file)
    by (rewrite <- !app_assoc; reflexivity).
  rewrite CleanFacts.Split_app by (auto using ArtifactFacts.slash_terminated_dir).
  destruct (Clean_last_regular q e "/." Hq He) as (q' & Hq' & E).
  { right. right. reflexivity. }
  replace (((q ++ e) ++ [Separator]) ++ lit ".") with (q ++ e ++ lit "/.")
    by (rewrite <- !app_assoc; reflexivity).
  rewrite E, CleanFacts.Split_app by (assumption || apply He).
  reflexivity.
Qed.

Lemma createS3Key_bare name :
  no_sep name -> createS3Key name = "./" ++ name.
Proof.
  intros Hn. unfold createS3Key. rewrite (CleanFacts.Split_no_sep name Hn).
  reflexivity.
Qed.

Lemma createS3Key_root name :
  no_sep name -> createS3Key ("/" ++ name) = "/" ++ name.
Proof.
  intros Hn. unfold createS3Key.
  change (lit "/" ++ name) with ([Separator] ++ name).
  rewrite CleanFacts.Split_app; [reflexivity | | assumption].
  right. exists []. reflexivity.
Qed.

End KeyMore.

(** X11. Whatever path it is given, the storage key has exactly one
    separator. *)
Theorem storage_key_has_one_separator p :
  count_occ ascii_dec (createS3Key p) "/"%char = 1%nat.
Proof. apply ArtifactFacts.createS3Key_one_separator. Qed.

(** X12. The storage key keeps the last two elements of the path and
    drops every ancestor: the key of [q/e/file] and of [e/file] is
    [e/file], when the directory name [e] is neither [.] nor [..]. *)
Theorem storage_key_keeps_last_two_elements q e file :
  regular e -> no_sep file ->
  createS3Key (q ++ "/" ++ e ++ "/" ++ file) = e ++ "/" ++ file /\
  createS3Key (e ++ "/" ++ file) = e ++ "/" ++ file.
Proof.
  intros He Hf. split.
  - replace (q ++ lit "/" ++ e ++ lit "/" ++ file)
      with ((q ++ [filepath.Separator]) ++ e ++ lit "/" ++ file)
      by (rewrite <- !app_assoc; reflexivity).
    apply KeyMore.createS3Key_regular; [right; exists q; reflexivity | assumption..].
  - apply (KeyMore.createS3Key_regular []); [left; reflexivity | assumption..].
Qed.

Lemma storage_key_keeps_last_two_elements_witness :
  createS3Key (lit "/srv/../tmp" ++ "/" ++ lit ".2024" ++ "/" ++ lit "dump.cf") =
  lit ".2024" ++ "/" ++ lit "dump.cf".
Proof.
  apply (storage_key_keeps_last_two_elements (lit "/srv/../tmp") (lit ".2024")
           (lit "dump.cf")).
  - split; [repeat constructor | repeat split; discriminate].
  - repeat constructor.
Defined.

(** X13. A path without a directory gets the key [./name]; a file in
    the root directory gets the key [/name], with nothing before the
    separator. *)
Theorem storage_key_without_parent_directory name :
  no_sep name ->
  createS3Key name = "./" ++ name /\ createS3Key ("/" ++ name) = "/" ++ name.
Proof.
  intros Hn. split;
    [apply KeyMore.createS3Key_bare | apply KeyMore.createS3Key_root]; assumption.
Qed.

Lemma storage_key_without_parent_directory_witness :
  createS3Key (lit "dump.cf") = "./" ++ lit "dump.cf" /\
  createS3Key ("/" ++ lit "dump.cf") = "/" ++ lit "dump.cf".
Proof.
  apply storage_key_without_parent_directory. repeat constructor.
Defined.

(** * Further properties of the pipeline *)

Module ProgramMore.

#[local] Opaque createBackupFilePath encryptedBackupResult createS3Key filepath.Dir Itoa lit.

Lemma cmd_Run_ok st : cmd_Run st = None -> ExitCode st = 0%Z.
Proof.
  destruct st as [e | code | sig]; simpl; try discriminate.
  destruct (Z.eqb_spec code 0); [auto | discriminate].
Qed.

(** The branch of [dumpMysql] and [invokeAxCrypt] that tests the exit
    code after a successful [cmd.Run] is never taken. *)
Lemma exit_code_branch_dead st :
  cmd_Run st = None -> negb (ExitCode st =? 0)%Z = false.
Proof. intros H. rewrite (cmd_Run_ok st H). reflexivity. Qed.

Ltac kill_dead_branch :=
  match goal with
  | H1 : cmd_Run ?st = None, H2 : negb (ExitCode ?st =? 0)%Z = true |- _ =>
      rewrite (exit_code_branch_dead st H1) in H2; discriminate H2
  end.


Lemma dry_run_result w r tr :
  run_main w true false = (r, tr) -> r = Ret tt \/ r = Exit 1.
Proof.
  intros E. revert E. ProgramFacts.exec_main.
  all: intros E; inversion E; subst r tr; clear E.
  all: first [left; reflexivity | right; reflexivity].
Qed.


Lemma stages_in_order w dry r tr :
  run_main w dry false = (r, tr) ->
  exists n, stages_of tr = firstn n pipeline_stages.
Proof.
  intros E. revert E. destruct dry; ProgramFacts.exec_main.
  all: intros E; inversion E; subst r tr; clear E.
  all: first [ exists 0%nat; reflexivity | exists 1%nat; reflexivity
             | exists 2%nat; reflexivity | exists 3%nat; reflexivity
             | exists 4%nat; reflexivity | exists 5%nat; reflexivity
             | exists 6%nat; reflexivity | exists 7%nat; reflexivity
             | exists 8%nat; reflexivity | exists 9%nat; reflexivity
             | exists 10%nat; reflexivity ].
Qed.

Lemma complete_run_stages w tr :
  run_main w false false = (Ret tt, tr) -> stages_of tr = pipeline_stages.
Proof.
  intros E. revert E. ProgramFacts.exec_main.
  all: intros E; inversion E; subst tr; clear E.
  all: reflexivity.
Qed.

Lemma env_flag_run w dry : run_main w dry true = (Ret tt, [Stdout envReference]).
Proof. reflexivity. Qed.

Lemma exec_third_all a b e0 rest pre e post :
  a :: b :: e0 :: rest = pre ++ e :: post ->
  is_exec a = false -> is_exec b = false ->
  forallb (fun e => negb (is_exec e)) rest = true ->
  is_exec e = true ->
  pre = [a; b] /\ e = e0 /\ post = rest.
Proof.
  intros H Ha Hb Hrest He.
  destruct (ProgramFacts.exec_third _ _ _ _ _ _ _ H Ha Hb Hrest He) as [-> ->].
  simpl in H. inversion H. repeat split; reflexivity.
Qed.

(** When [cmd.Run] of the dump returns an error, the run ends there. *)
Lemma dump_failure w r tr pre args post e :
  run_main w false false = (r, tr) ->
  tr = pre ++ Exec "mysqldump" args :: post ->
  cmd_Run (child w pre "mysqldump" args) = Some e ->
  r = Exit 1 /\ post = [Stderr ("mysql backup failed: " ++ e ++ "
")].
Proof.
  intros E Htr Hch. subst tr. revert E. ProgramFacts.exec_main.
  all: intros E; inversion E as [[Hr Htr]]; clear E.
  all: try (exfalso; eapply ProgramFacts.no_exec_in; [| exact Htr | reflexivity]; reflexivity).
  all: destruct (exec_third_all _ _ _ _ _ _ _ Htr eq_refl eq_refl eq_refl eq_refl)
         as (-> & Hargs & ->).
  all: inversion Hargs; subst args; clear Hargs.
  all: match goal with
       | H : cmd_Run _ = _ |- _ => rewrite Hch in H; inversion H; subst; clear H
       end.
  all: split; reflexivity.
Qed.

(** The dump is invoked in one way only. *)
Lemma dump_command_line w dry r tr name args :
  run_main w dry false = (r, tr) ->
  In (Exec name args) tr ->
  dry = false /\ name = lit "mysqldump" /\ args = dump_args w /\
  environ w mysqlUserEnvVar <> [] /\ environ w mysqlPassEnvVar <> [].
Proof.
  intros E. revert E. destruct dry; ProgramFacts.exec_main.
  all: intros E; inversion E; subst r tr; clear E.
  all: cbn [In]; intros H.
  all: repeat (destruct H as [H | H]; [try discriminate H|]); try contradiction.
  all: inversion H; subst; clear H.
  all: repeat split; try reflexivity.
  all: intros Hn; rewrite Hn in *; discriminate.
Qed.

(** An upload is a step of a live run that has run the dump and has
    gone through the write of the encrypted file; it goes to the
    configured region and bucket. *)
Lemma upload_context w dry r tr bucket key file :
  run_main w dry false = (r, tr) ->
  In (Upload bucket key file) tr ->
  dry = false /\
  bucket = environ w s3BackupBucketEnvVar /\
  In (NewSession (environ w s3BackupRegionEnvVar)) tr /\
  In (Exec "mysqldump" (dump_args w)) tr /\
  (exists data, In (WriteFile (encrypted_path w) data) tr) /\
  In (Open (encrypted_path w)) tr /\
  (r = Ret tt \/ r = Exit 1).
Proof.
  intros E. revert E. destruct dry; ProgramFacts.exec_main.
  all: intros E; inversion E; subst r tr; clear E.
  all: cbn [In]; intros H.
  all: repeat (destruct H as [H | H]; [try discriminate H|]); try contradiction.
  all: inversion H; subst; clear H.
  all: unfold dump_args, encrypted_path, plain_path.
  all: repeat split; try reflexivity; try (eexists; cbn [In]); tauto.
Qed.

(** Without the key-file variable a live run never comes to read a
    key, the dump, to encrypt, write or upload. *)
Lemma key_variable_missing w r tr :
  run_main w false false = (r, tr) ->
  is_empty (environ w encryptionKey) = true ->
  forallb (fun e => negb (is_encryption_step e) && negb (is_upload e)) tr = true /\
  (r = Exit 1 \/ r = Panic ("Cannot get key path from $" ++ encryptionKey)).
Proof.
  intros E. revert E. ProgramFacts.exec_main.
  all: intros E Hk; inversion E; subst r tr; clear E.
  all: try discriminate Hk.
  all: split; [reflexivity | first [left; reflexivity | right; reflexivity]].
Qed.

Lemma cmd_Run_none st : cmd_Run st = None -> st = Exited 0.
Proof.
  destruct st as [e | code | sig]; simpl; try discriminate.
  destruct (Z.eqb_spec code 0); [intros _; subst; reflexivity | discriminate].
Qed.

Ltac exec_fun :=
  ProgramFacts.exec;
  cbv [ret call emit os_Exit panic]; cbv beta; cbn [fst snd].

(** What [dumpMysql] returns: the error of [MkdirAll], the error of
    [cmd.Run], or nil when the child exited with status 0. *)
Lemma dumpMysql_result w backupFile h :
  let dir := filepath.Dir backupFile in
  let args := [lit "-u"; environ w mysqlUserEnvVar; "-p" ++ environ w mysqlPassEnvVar;
               lit "--default-character-set=utf8"; lit "myclinic";
               "--result-file=" ++ backupFile] in
  let st := child w (h ++ [MkdirAll dir]) "mysqldump" args in
  (forall e, fst (dumpMysql w backupFile h) = Ret (Some e) ->
             mkdir_all w h dir = Some e \/
             (mkdir_all w h dir = None /\ cmd_Run st = Some e)) /\
  (fst (dumpMysql w backupFile h) = Ret None ->
   mkdir_all w h dir = None /\ st = Exited 0).
Proof.
  intros dir args st. subst dir args st. unfold dumpMysql. exec_fun.
  all: try kill_dead_branch.
  all: split; [intros e0 He0; inversion He0; subst | intros He0; try discriminate He0].
  all: solve [ left; reflexivity
             | right; split; reflexivity
             | split; [reflexivity | apply cmd_Run_none; assumption] ].
Qed.

(** What [invokeAxCrypt] returns is what [cmd.Run] returns. *)
Lemma invokeAxCrypt_result w prog password src h :
  let args := [lit "-b"; lit "2"; lit "-e"; lit "-k"; password; lit "-z"; src] in
  invokeAxCrypt w prog password src h =
  (Ret (cmd_Run (child w h prog args)), h ++ [Exec prog args]).
Proof.
  intros args. subst args. unfold invokeAxCrypt. exec_fun.
  all: try kill_dead_branch.
  all: f_equal; f_equal; symmetry; assumption.
Qed.

(** [encryptBackupFile] returns the error of [MkdirAll] or of
    [ReadFile], and then it has not encrypted or written anything; in
    every other case it returns nil. *)
Lemma encryptBackupFile_error w dst key src h e :
  let h1 := (h ++ [Stdout ("dstPath " ++ dst ++ "
")]) ++ [Stdout ("dst dir " ++ filepath.Dir dst ++ "
")] in
  fst (encryptBackupFile w dst key src h) = Ret (Some e) ->
  (mkdir_all w h1 (filepath.Dir dst) = Some e \/
   (mkdir_all w h1 (filepath.Dir dst) = None /\
    snd (read_file w (h1 ++ [MkdirAll (filepath.Dir dst)]) src) = Some e)) /\
  existsb (fun s => match s with SEncrypt | SWrite => true | _ => false end)
          (stages_of (skipn (length h) (snd (encryptBackupFile w dst key src h)))) = false.
Proof.
  intros h1. subst h1. unfold encryptBackupFile. exec_fun.
  all: intros He0; inversion He0; subst; clear He0.
  all: split; [first [left; assumption
                     | left; reflexivity
                     | right; split; [assumption|]
                     | right; split; [reflexivity|] ] |].
  all: try reflexivity.
  all: rewrite <- !app_assoc, skipn_app, skipn_all, Nat.sub_diag; reflexivity.
Qed.

(** When the directory is there and the dump is read, [encryptBackupFile]
    hands the key and the bytes read to the primitive, writes what the
    primitive returns to the destination, and returns nil. *)
Lemma encryptBackupFile_trace w dst key src h data :
  let dir := filepath.Dir dst in
  let h1 := (h ++ [Stdout ("dstPath " ++ dst ++ "
")]) ++ [Stdout ("dst dir " ++ dir ++ "
")] in
  let h2 := h1 ++ [MkdirAll dir] in
  let h3 := h2 ++ [ReadFile src] in
  mkdir_all w h1 dir = None ->
  read_file w h2 src = (data, None) ->
  encryptBackupFile w dst key src h =
  (Ret None,
   (h3 ++ [CompressAndEncrypt key data]) ++
   [WriteFile dst (fst (compress_and_encrypt w h3 key data))]).
Proof.
  intros dir h1 h2 h3 Hmk Hrd. subst dir h1 h2 h3.
  unfold encryptBackupFile.
  repeat first [ rewrite ProgramFacts.bind_bind | rewrite ProgramFacts.bind_emit
               | rewrite ProgramFacts.bind_call | progress cbv beta ].
  rewrite Hmk. rewrite ProgramFacts.bind_call. cbv beta. rewrite Hrd.
  rewrite ProgramFacts.bind_call. cbv beta.
  destruct (compress_and_encrypt w _ key data) as [enc err] eqn:E.
  rewrite ProgramFacts.bind_call. reflexivity.
Qed.

Lemma none_in (P : event -> bool) tr pre e post :
  forallb (fun e => negb (P e)) tr = true ->
  tr = pre ++ e :: post -> P e = true -> False.
Proof.
  intros Hall -> He. rewrite forallb_app in Hall.
  apply andb_prop in Hall. destruct Hall as [_ Hall].
  simpl in Hall. rewrite He in Hall. discriminate.
Qed.

(** A list with one event that satisfies [P] is cut at it in one way. *)
Lemma split_at_unique (P : event -> bool) : forall l pre e post pre0 e0 post0,
  split_at P l = Some (pre0, e0, post0) ->
  forallb (fun e => negb (P e)) post0 = true ->
  l = pre ++ e :: post -> P e = true ->
  pre = pre0 /\ e = e0 /\ post = post0.
Proof.
  induction l as [|x l IH]; intros pre e post pre0 e0 post0 Hs Hpost Hl He;
    [discriminate|].
  simpl in Hs. destruct (P x) eqn:Hx.
  - inversion Hs; subst pre0 e0 post0; clear Hs.
    destruct pre as [|y pre]; simpl in Hl; inversion Hl; subst.
    + repeat split; reflexivity.
    + exfalso. eapply (none_in P); [exact Hpost | reflexivity | exact He].
  - destruct (split_at P l) as [[[a b] c]|] eqn:Hl'; [|discriminate].
    inversion Hs; subst pre0 e0 post0; clear Hs.
    destruct pre as [|y pre]; simpl in Hl; inversion Hl; subst.
    + congruence.
    + destruct (IH pre e post a b c eq_refl Hpost eq_refl He) as (-> & -> & ->).
      repeat split; reflexivity.
Qed.

Ltac cut_at P Htr Hev :=
  match type of Htr with
  | ?l = _ =>
      let s := eval cbv [split_at P] in (split_at P l) in
      match s with
      | Some (?a, ?b, ?c) =>
          destruct (split_at_unique P l _ _ _ a b c eq_refl eq_refl Htr eq_refl)
            as (-> & Hev & ->)
      end
  end.

(** The end of a run, from the opening of the encrypted file on: when
    it cannot be opened the run ends with the diagnostic and code 1,
    and nothing is uploaded. *)
Lemma open_failure w r tr pre file post e :
  run_main w false false = (r, tr) ->
  tr = pre ++ Open file :: post ->
  open_file w pre file = Some e ->
  r = Exit 1 /\ post = [Stderr ("failed to upload to S3: " ++ e ++ "
")].
Proof.
  intros E Htr Hch. subst tr. revert E. ProgramFacts.exec_main.
  all: intros E; inversion E as [[Hr Htr]]; clear E.
  all: try (exfalso; eapply (none_in is_open); [| exact Htr | reflexivity]; reflexivity).
  all: cut_at is_open Htr Hev.
  all: inversion Hev; subst file; clear Hev.
  all: match goal with
       | H : open_file _ _ _ = _ |- _ =>
           pose proof (eq_trans (eq_sym Hch) H) as Hsame; inversion Hsame; subst
       end.
  all: split; reflexivity.
Qed.

(** The answer of the upload decides how the run ends. *)
Lemma upload_outcome w r tr pre bucket key file post :
  run_main w false false = (r, tr) ->
  tr = pre ++ Upload bucket key file :: post ->
  match s3_upload w pre bucket key file with
  | Some e => r = Exit 1 /\ post = [Stderr ("failed to upload to S3: " ++ e ++ "
")]
  | None => r = Ret tt /\ post = []
  end.
Proof.
  intros E Htr. subst tr. revert E. ProgramFacts.exec_main.
  all: intros E; inversion E as [[Hr Htr]]; clear E.
  all: try (exfalso; eapply (none_in is_Upload); [| exact Htr | reflexivity]; reflexivity).
  all: cut_at is_Upload Htr Hev.
  all: inversion Hev; subst bucket key file; clear Hev.
  all: match goal with
       | H : s3_upload _ _ _ _ _ = _ |- _ => rewrite H
       end.
  all: split; reflexivity.
Qed.


End ProgramMore.



(** X15. A dry run never panics: it ends normally or with exit code 1. *)
Theorem dry_run_never_panics w printEnv :
  fst (run_main w true printEnv) = Ret tt \/ fst (run_main w true printEnv) = Exit 1.
Proof.
  destruct printEnv; [left; reflexivity|].
  destruct (run_main w true false) as [r tr] eqn:E. cbn [fst].
  apply (ProgramMore.dry_run_result w r tr E).
Qed.


(** X17. The steps of a run are the first steps of the pipeline, in its
    order: create the directory, dump, read the key, create the
    directory, read the dump, encrypt, write, open a session, open the
    file, upload.  No step is repeated, skipped or reordered. *)
Theorem steps_follow_pipeline_order w dry printEnv :
  exists n, stages_of (snd (run_main w dry printEnv)) = firstn n pipeline_stages.
Proof.
  destruct printEnv; [exists 0%nat; reflexivity|].
  destruct (run_main w dry false) as [r tr] eqn:E. cbn [snd].
  apply (ProgramMore.stages_in_order w dry r tr E).
Qed.

(** X18. A live run that ends normally has done every step of the
    pipeline, once each, in order. *)
Theorem complete_live_run_does_every_step w :
  fst (run_main w false false) = Ret tt ->
  stages_of (snd (run_main w false false)) = pipeline_stages.
Proof.
  destruct (run_main w false false) as [r tr] eqn:E. cbn [fst snd].
  intros ->. apply (ProgramMore.complete_run_stages w tr E).
Qed.

Lemma complete_live_run_does_every_step_witness :
  stages_of (snd (run_main (good_world full_env) false false)) = pipeline_stages.
Proof.
  apply complete_live_run_does_every_step. vm_compute. reflexivity.
Defined.

(** X19. An upload happens in a live run only, to the configured
    bucket, with a session for the configured region, and only in a
    run that has invoked the dump and has gone through the write and
    the opening of the encrypted file; such a run ends normally or with
    exit code 1. *)
Theorem upload_only_after_dump_and_encryption w dry printEnv bucket key file :
  In (Upload bucket key file) (snd (run_main w dry printEnv)) ->
  dry = false /\
  bucket = environ w s3BackupBucketEnvVar /\
  In (NewSession (environ w s3BackupRegionEnvVar)) (snd (run_main w dry printEnv)) /\
  In (Exec "mysqldump" (dump_args w)) (snd (run_main w dry printEnv)) /\
  (exists data, In (WriteFile (encrypted_path w) data) (snd (run_main w dry printEnv))) /\
  In (Open (encrypted_path w)) (snd (run_main w dry printEnv)) /\
  (fst (run_main w dry printEnv) = Ret tt \/ fst (run_main w dry printEnv) = Exit 1).
Proof.
  destruct printEnv.
  { rewrite ProgramMore.env_flag_run. cbn [snd In].
    intros [H | []]. discriminate H. }
  destruct (run_main w dry false) as [r tr] eqn:E. cbn [fst snd].
  apply (ProgramMore.upload_context w dry r tr bucket key file E).
Qed.

Lemma upload_only_after_dump_and_encryption_witness :
  lit "clinic-backup" = environ (good_world full_env) s3BackupBucketEnvVar.
Proof.
  apply (upload_only_after_dump_and_encryption (good_world full_env) false false
           (lit "clinic-backup") (lit "2024-01/dump-202401150930-sql.cf")
           (lit "/ebackup/2024-01/dump-202401150930-sql.cf")).
  vm_compute. tauto.
Defined.

(** X20. When [cmd.Run] of the dump returns an error (the tool does not
    start, exits with a code other than 0, or is killed), the process
    writes [mysql backup failed: ] and the error to standard error and
    exits with code 1; nothing else follows the dump. *)
Theorem dump_failure_ends_the_run w pre args post e :
  snd (run_main w false false) = pre ++ Exec "mysqldump" args :: post ->
  cmd_Run (child w pre "mysqldump" args) = Some e ->
  fst (run_main w false false) = Exit 1 /\
  post = [Stderr ("mysql backup failed: " ++ e ++ "
")].
Proof.
  destruct (run_main w false false) as [r tr] eqn:E. cbn [fst snd].
  intros Htr Hch. exact (ProgramMore.dump_failure w r tr pre args post e E Htr Hch).
Qed.

Lemma dump_failure_ends_the_run_witness :
  fst (run_main failing_dump_world false false) = Exit 1 /\
  [Stderr ("mysql backup failed: exit status 2" ++ ["010"%char])] =
  [Stderr ("mysql backup failed: " ++ ("exit status " ++ Itoa 2) ++ "
")].
Proof.
  apply (dump_failure_ends_the_run failing_dump_world
           [TimeNow; MkdirAll "/backup/2024-01"]
           [lit "-u"; lit "clinic"; lit "-psecret"; lit "--default-character-set=utf8";
            lit "myclinic"; lit "--result-file=/backup/2024-01/dump-202401150930.sql"]
           [Stderr ("mysql backup failed: exit status 2" ++ ["010"%char])]
           ("exit status " ++ Itoa 2)).
  - vm_compute. reflexivity.
  - reflexivity.
Defined.

(** X21. [dumpMysql] returns the error of [MkdirAll] or the error of
    [cmd.Run], and nil only when the tool has exited with status 0:
    its own message about the exit code is never returned, since
    [cmd.Run] has already returned an error for such a code. *)
Theorem dumpMysql_returns_run_error w backupFile h :
  let dir := filepath.Dir backupFile in
  let args := [lit "-u"; environ w mysqlUserEnvVar; "-p" ++ environ w mysqlPassEnvVar;
               lit "--default-character-set=utf8"; lit "myclinic";
               "--result-file=" ++ backupFile] in
  let st := child w (h ++ [MkdirAll dir]) "mysqldump" args in
  (forall e, fst (dumpMysql w backupFile h) = Ret (Some e) ->
             mkdir_all w h dir = Some e \/
             (mkdir_all w h dir = None /\ cmd_Run st = Some e)) /\
  (fst (dumpMysql w backupFile h) = Ret None ->
   mkdir_all w h dir = None /\ st = Exited 0).
Proof. apply ProgramMore.dumpMysql_result. Qed.

Lemma dumpMysql_returns_run_error_witness :
  mkdir_all (good_world full_env) [] (filepath.Dir (lit "/backup/2024-01/d.sql")) = None /\
  child (good_world full_env)
    ([] ++ [MkdirAll (filepath.Dir (lit "/backup/2024-01/d.sql"))]) "mysqldump"
    [lit "-u"; environ (good_world full_env) mysqlUserEnvVar;
     "-p" ++ environ (good_world full_env) mysqlPassEnvVar;
     lit "--default-character-set=utf8"; lit "myclinic";
     "--result-file=" ++ lit "/backup/2024-01/d.sql"] = Exited 0.
Proof.
  apply (proj2 (dumpMysql_returns_run_error (good_world full_env)
                  (lit "/backup/2024-01/d.sql") [])).
  vm_compute. reflexivity.
Defined.

(** X22. [encryptBackupFile] returns an error only when [MkdirAll] or
    [ReadFile] has failed, that error, and then it has neither
    encrypted nor written anything. *)
Theorem encryptBackupFile_error_sources w dst key src h e :
  let h1 := (h ++ [Stdout ("dstPath " ++ dst ++ "
")]) ++ [Stdout ("dst dir " ++ filepath.Dir dst ++ "
")] in
  fst (encryptBackupFile w dst key src h) = Ret (Some e) ->
  (mkdir_all w h1 (filepath.Dir dst) = Some e \/
   (mkdir_all w h1 (filepath.Dir dst) = None /\
    snd (read_file w (h1 ++ [MkdirAll (filepath.Dir dst)]) src) = Some e)) /\
  existsb (fun s => match s with SEncrypt | SWrite => true | _ => false end)
          (stages_of (skipn (length h) (snd (encryptBackupFile w dst key src h)))) = false.
Proof. apply ProgramMore.encryptBackupFile_error. Qed.

Lemma encryptBackupFile_error_sources_witness :
  existsb (fun s => match s with SEncrypt | SWrite => true | _ => false end)
          (stages_of (skipn (length (@nil event))
             (snd (encryptBackupFile unreadable_dump_world (lit "/e/x-sql.cf") (lit "k")
                     (lit "/b/x.sql") [])))) = false.
Proof.
  apply (encryptBackupFile_error_sources unreadable_dump_world (lit "/e/x-sql.cf")
           (lit "k") (lit "/b/x.sql") [] (lit "no such file or directory")).
  vm_compute. reflexivity.
Defined.

(** X23. When the directory is there and the dump can be read,
    [encryptBackupFile] gives the primitive the key it was given and
    the bytes it has read, writes to the destination exactly what the
    primitive returns, whether or not the primitive reports an error,
    and returns nil. *)
Theorem encryptBackupFile_writes_primitive_output w dst key src h data :
  let dir := filepath.Dir dst in
  let h1 := (h ++ [Stdout ("dstPath " ++ dst ++ "
")]) ++ [Stdout ("dst dir " ++ dir ++ "
")] in
  let h2 := h1 ++ [MkdirAll dir] in
  let h3 := h2 ++ [ReadFile src] in
  mkdir_all w h1 dir = None ->
  read_file w h2 src = (data, None) ->
  encryptBackupFile w dst key src h =
  (Ret None,
   (h3 ++ [CompressAndEncrypt key data]) ++
   [WriteFile dst (fst (compress_and_encrypt w h3 key data))]).
Proof. apply ProgramMore.encryptBackupFile_trace. Qed.

Lemma encryptBackupFile_writes_primitive_output_witness :
  fst (encryptBackupFile failing_encryption_world (lit "/e/x-sql.cf") (lit "k")
         (lit "/b/x.sql") []) = Ret None.
Proof.
  rewrite (encryptBackupFile_writes_primitive_output failing_encryption_world
             (lit "/e/x-sql.cf") (lit "k") (lit "/b/x.sql") [] (lit "sql")
             eq_refl eq_refl).
  reflexivity.
Defined.

(** X24. In a live run without the key-file variable no key is read,
    nothing is encrypted, written or uploaded; the run exits with code
    1 before it comes to the key, or panics with the message that names
    the variable. *)
Theorem missing_key_variable_stops_before_encryption w :
  environ w encryptionKey = [] ->
  forallb (fun e => negb (is_encryption_step e) && negb (is_upload e))
          (snd (run_main w false false)) = true /\
  (fst (run_main w false false) = Exit 1 \/
   fst (run_main w false false) = Panic ("Cannot get key path from $" ++ encryptionKey)).
Proof.
  intros Hk. apply ProgramFacts.is_empty_nil in Hk.
  destruct (run_main w false false) as [r tr] eqn:E. cbn [fst snd].
  apply (ProgramMore.key_variable_missing w r tr E Hk).
Qed.

Lemma missing_key_variable_stops_before_encryption_witness :
  forallb (fun e => negb (is_encryption_step e) && negb (is_upload e))
          (snd (run_main (good_world env_without_key) false false)) = true /\
  (fst (run_main (good_world env_without_key) false false) = Exit 1 \/
   fst (run_main (good_world env_without_key) false false) =
   Panic ("Cannot get key path from $" ++ encryptionKey)).
Proof.
  apply missing_key_variable_stops_before_encryption. reflexivity.
Defined.

(** X25. [invokeAxCrypt] runs the program once with the arguments
    [-b 2 -e -k password -z src] and returns what [cmd.Run] returns;
    its own message about the exit code is never returned. *)
Theorem invokeAxCrypt_returns_run_error w prog password src h :
  let args := [lit "-b"; lit "2"; lit "-e"; lit "-k"; password; lit "-z"; src] in
  invokeAxCrypt w prog password src h =
  (Ret (cmd_Run (child w h prog args)), h ++ [Exec prog args]).
Proof. apply ProgramMore.invokeAxCrypt_result. Qed.

(** X26. The only program a run ever starts is [mysqldump], in a live
    run, with a non-empty user and password from the environment, the
    character set [utf8], the database [myclinic] and the plain path as
    result file. *)
Theorem dump_is_invoked_in_one_way w dry printEnv name args :
  In (Exec name args) (snd (run_main w dry printEnv)) ->
  dry = false /\ name = lit "mysqldump" /\ args = dump_args w /\
  environ w mysqlUserEnvVar <> [] /\ environ w mysqlPassEnvVar <> [].
Proof.
  destruct printEnv.
  { rewrite ProgramMore.env_flag_run. cbn [snd In].
    intros [H | []]. discriminate H. }
  destruct (run_main w dry false) as [r tr] eqn:E. cbn [snd].
  apply (ProgramMore.dump_command_line w dry r tr name args E).
Qed.

Lemma dump_is_invoked_in_one_way_witness :
  lit "mysqldump" = lit "mysqldump" /\
  dump_args (good_world full_env) = dump_args (good_world full_env).
Proof.
  destruct (dump_is_invoked_in_one_way (good_world full_env) false false
              (lit "mysqldump") (dump_args (good_world full_env)))
    as (_ & Hn & Ha & _).
  - vm_compute. tauto.
  - split; [exact Hn | exact Ha].
Defined.

(** X27. When the encrypted file cannot be opened for the upload, the
    process writes [failed to upload to S3: ] and the error to standard
    error and exits with code 1; nothing is uploaded. *)
Theorem open_failure_ends_the_run w pre file post e :
  snd (run_main w false false) = pre ++ Open file :: post ->
  open_file w pre file = Some e ->
  fst (run_main w false false) = Exit 1 /\
  post = [Stderr ("failed to upload to S3: " ++ e ++ "
")].
Proof.
  destruct (run_main w false false) as [r tr] eqn:E. cbn [fst snd].
  intros Htr Hch. exact (ProgramMore.open_failure w r tr pre file post e E Htr Hch).
Qed.

Lemma open_failure_ends_the_run_witness :
  fst (run_main failing_open_world false false) = Exit 1.
Proof.
  apply (open_failure_ends_the_run failing_open_world
           (firstn 15 (snd (run_main failing_open_world false false)))
           (lit "/ebackup/2024-01/dump-202401150930-sql.cf")
           [Stderr ("failed to upload to S3: no such file or directory" ++ ["010"%char])]
           (lit "no such file or directory")).
  - vm_compute. reflexivity.
  - reflexivity.
Defined.

(** X28. The answer of the upload decides the end of the run: on an
    error the process writes [failed to upload to S3: ] and the error
    to standard error and exits with code 1; without one the run ends
    normally, and the upload is the last thing it does. *)
Theorem upload_decides_the_end w pre bucket key file post :
  snd (run_main w false false) = pre ++ Upload bucket key file :: post ->
  match s3_upload w pre bucket key file with
  | Some e =>
      fst (run_main w false false) = Exit 1 /\
      post = [Stderr ("failed to upload to S3: " ++ e ++ "
")]
  | None => fst (run_main w false false) = Ret tt /\ post = []
  end.
Proof.
  destruct (run_main w false false) as [r tr] eqn:E. cbn [fst snd].
  intros Htr. exact (ProgramMore.upload_outcome w r tr pre bucket key file post E Htr).
Qed.

Lemma upload_decides_the_end_witness :
  fst (run_main failing_upload_world false false) = Exit 1.
Proof.
  assert (H : snd (run_main failing_upload_world false false) =
              firstn 16 (snd (run_main failing_upload_world false false)) ++
              Upload (lit "clinic-backup") (lit "2024-01/dump-202401150930-sql.cf")
                     (lit "/ebackup/2024-01/dump-202401150930-sql.cf") ::
              [Stderr ("failed to upload to S3: AccessDenied" ++ ["010"%char])])
    by (vm_compute; reflexivity).
  exact (proj1 (upload_decides_the_end failing_upload_world _ _ _ _ _ H)).
Defined.


